(** * Battery pack charging and balancing simulation

    A shallow embedding of the simulation engine of [src/index.html]
    (the four-case engine) and of the two stand-alone passive-balancing
    pages ([src/passive.js] and [src/unnamed/part_000]), followed by the
    properties of the engine.

    Numbers.  The JavaScript code computes on IEEE-754 doubles.  The
    embedding computes on exact rationals [Q]: every literal is read as the
    decimal fraction that is written in the source, and [+ - * /] are the
    exact field operations.  Rounding, infinities and NaN are not modelled;
    the two places where the source relies on an infinity ([Math.max] and
    [Math.min] of an empty argument list) are written out.  Division by a
    zero capacity is outside the model (all capacities of the pack are
    positive constants).

    State.  The source keeps [simulationCase], [phase], [chargingActive] and
    [cells] in global variables and mutates them in place.  The embedding
    threads them through the functions as a record [State]; functions that
    read the global [chargingActive] take it as their first argument. *)

From Stdlib Require Import QArith Qminmax Qround Lqa ZArith Bool.
From stdpp Require Import base option list.

Local Open Scope Q_scope.

(** ** JavaScript comparison operators on numbers *)

(** [x < y] *)
Definition Qltb (x y : Q) : bool := negb (Qle_bool y x).
(** [x > y] *)
Definition Qgtb (x y : Q) : bool := Qltb y x.
(** [x >= y] *)
Definition Qgeb (x y : Q) : bool := Qle_bool y x.

(** ** Completions: a call either returns normally or throws *)

Inductive JSError : Type := TypeError.

Inductive completion (A : Type) : Type :=
| Normal (a : A)
| Throw (e : JSError).
Arguments Normal {A} a.
Arguments Throw {A} e.

#[global] Instance completion_ret : MRet completion := @Normal.
#[global] Instance completion_bind : MBind completion :=
  λ A B f m, match m with Normal a => f a | Throw e => Throw e end.

(** A call raises when its completion is a [Throw]. *)
Definition raises {A} (r : completion A) : Prop := ∃ e, r = Throw e.

(** ** [Math.max(...vs)] and [Math.min(...vs)]

    [None] stands for the infinite result on an empty argument list
    ([-Infinity] for [Math.max], [+Infinity] for [Math.min]). *)

Fixpoint Math_max (vs : list Q) : option Q :=
  match vs with
  | [] => None
  | v :: vs' =>
      match Math_max vs' with
      | None => Some v
      | Some m => Some (Qmax v m)
      end
  end.

Fixpoint Math_min (vs : list Q) : option Q :=
  match vs with
  | [] => None
  | v :: vs' =>
      match Math_min vs' with
      | None => Some v
      | Some m => Some (Qmin v m)
      end
  end.

(** ** [x.toFixed(fractionDigits)]

    The text is the decimal numeral, with [fractionDigits] digits after the
    point, of [n / 10 ^ fractionDigits], where [n] is the integer that
    brings this closest to [x]; of two such integers the one larger in
    magnitude is taken, and a negative [x] is handled through [-x] with a
    minus sign in front.  The embedding gives the numerator [n], with its
    sign: [toFixed 3.98 2 = 398] stands for the text [3.98].  (A negative
    [x] that rounds to zero is shown with a minus sign, which [n = 0] does
    not keep; magnitudes of [10 ^ 21] and more are shown in another format
    and are outside the model.) *)
Definition toFixed (x : Q) (fractionDigits : nat) : Z :=
  let scale := inject_Z (10 ^ Z.of_nat fractionDigits) in
  if Qltb x 0 then (- Qfloor (- x * scale + (1 # 2)))%Z
  else Qfloor (x * scale + (1 # 2)).

(** ** The four-case engine of [src/index.html] *)

Module Engine.

(** Battery model parameters. *)
Definition V_MIN : Q := 3.0.
Definition V_MAX : Q := 4.2.
Definition OVP : Q := 4.2.

(** Charger and balancing parameters. *)
Definition I_BASE : Q := 0.005.
Definition dPassive : Q := 0.001.
Definition dActive : Q := 0.001.
Definition tolVoltage : Q := 0.005.

(** A cell object [{ capacity, SOC, R }]. *)
Record Cell : Type := mkCell { capacity : Q; SOC : Q; R : Q }.

(** [cell.SOC = v] *)
Definition setSOC (cell : Cell) (v : Q) : Cell :=
  {| capacity := capacity cell; SOC := v; R := R cell |}.

(** The three values taken by the string variable [phase]. *)
Inductive Phase : Type := Charging | Balancing | Done.

(** The simulation state variables.  ([simulationRunning] belongs to the
    animation loop and is not read by the engine.) *)
Record State : Type := mkState {
  simulationCase : Z;
  phase : Phase;
  chargingActive : bool;
  cells : list Cell
}.

Definition setPhase (s : State) (p : Phase) : State :=
  {| simulationCase := simulationCase s; phase := p;
     chargingActive := chargingActive s; cells := cells s |}.
Definition setChargingActive (s : State) (b : bool) : State :=
  {| simulationCase := simulationCase s; phase := phase s;
     chargingActive := b; cells := cells s |}.
Definition setCells (s : State) (cs : list Cell) : State :=
  {| simulationCase := simulationCase s; phase := phase s;
     chargingActive := chargingActive s; cells := cs |}.

(** [initCells]: the value assigned to [cells]. *)
Definition initCells : list Cell :=
  [ {| capacity := 3.0; SOC := 0.70; R := 0.05 |};
    {| capacity := 2.5; SOC := 0.50; R := 0.08 |};
    {| capacity := 3.5; SOC := 0.90; R := 0.03 |} ].

(** [getOCV(cell)] *)
Definition getOCV (cell : Cell) : Q :=
  V_MIN + (V_MAX - V_MIN) * SOC cell.

(** [getMeasuredVoltage(cell, current)]; [active] is the value of the
    global [chargingActive] at the time of the call. *)
Definition getMeasuredVoltage (active : bool) (cell : Cell) (current : Q) : Q :=
  getOCV cell + (if active then current * R cell else 0).

(** [getChargingCurrentCase4()]: the running maximum starts at [0] and is
    replaced on a strict [>]. *)
Definition getChargingCurrentCase4 (active : bool) (cs : list Cell) : Q :=
  let maxV :=
    fold_left (fun maxV cell =>
                 let v := getMeasuredVoltage active cell I_BASE in
                 if Qgtb v maxV then v else maxV) cs 0 in
  if Qgeb maxV OVP then I_BASE * 0.1 else I_BASE.

(** Body of the charging [forEach]:
    [cell.SOC += I_effective / cell.capacity; if (cell.SOC > 1) cell.SOC = 1]. *)
Definition chargeCell (I_effective : Q) (cell : Cell) : Cell :=
  let cell := setSOC cell (SOC cell + I_effective / capacity cell) in
  if Qgtb (SOC cell) 1 then setSOC cell 1 else cell.

(** The locals [maxIndex], [minIndex], [maxVoltage], [minVoltage] of the
    donor/receiver scan. *)
Record Scan : Type := mkScan {
  maxIndex : nat; minIndex : nat; maxVoltage : Q; minVoltage : Q
}.

(** Body of the scanning [forEach((cell, i) => ...)]. *)
Definition scanCell (active : bool) (current : Q) (sc : Scan) (i : nat) (cell : Cell) : Scan :=
  let v := getMeasuredVoltage active cell current in
  let sc := if Qgtb v (maxVoltage sc)
            then {| maxIndex := i; minIndex := minIndex sc;
                    maxVoltage := v; minVoltage := minVoltage sc |}
            else sc in
  if Qltb v (minVoltage sc)
  then {| maxIndex := maxIndex sc; minIndex := i;
          maxVoltage := maxVoltage sc; minVoltage := v |}
  else sc.

(** [cs.forEach((cell, i) => ...)] with the index counted from [i]. *)
Fixpoint forEachFrom {St : Type} (f : St -> nat -> Cell -> St)
    (i : nat) (cs : list Cell) (acc : St) : St :=
  match cs with
  | [] => acc
  | cell :: cs' => forEachFrom f (S i) cs' (f acc i cell)
  end.

(** The scan for the donor and the receiver.  Both running extremes start
    from [cells[0]]; on an empty array [cells[0]] is [undefined] and reading
    its [SOC] throws a [TypeError]. *)
Definition findDonorReceiver (active : bool) (current : Q) (cs : list Cell)
    : completion Scan :=
  match cs with
  | [] => Throw TypeError
  | cell0 :: _ =>
      let v0 := getMeasuredVoltage active cell0 current in
      Normal (forEachFrom (scanCell active current) 0%nat cs
                {| maxIndex := 0; minIndex := 0;
                   maxVoltage := v0; minVoltage := v0 |})
  end.

(** The transfer of [dActive] from the donor to the receiver, with the four
    statements in source order. *)
Definition transferCharge (sc : Scan) (cs : list Cell) : list Cell :=
  if Qgtb (maxVoltage sc - minVoltage sc) tolVoltage then
    let cs := alter (fun c => setSOC c (SOC c - dActive)) (maxIndex sc) cs in
    let cs := alter (fun c => setSOC c (SOC c + dActive)) (minIndex sc) cs in
    let cs := alter (fun c => if Qltb (SOC c) 0 then setSOC c 0 else c) (maxIndex sc) cs in
    let cs := alter (fun c => if Qgtb (SOC c) 1 then setSOC c 1 else c) (minIndex sc) cs in
    cs
  else cs.

(** The active-transfer block, which the source has twice: in the charging
    phase of case 3 (with [I_effective]) and in the balancing phase of case 2
    (with current [0]). *)
Definition activeTransfer (active : bool) (current : Q) (cs : list Cell)
    : completion (list Cell) :=
  sc ← findDonorReceiver active current cs;
  Normal (transferCharge sc cs).

(** Passive balancing: every cell above the minimum by more than the
    tolerance is discharged by [dPassive].  With no cell at all the minimum
    is [+Infinity] and the loop body never runs. *)
Definition passiveBalance (active : bool) (cs : list Cell) : list Cell :=
  match Math_min (map (fun cell => getMeasuredVoltage active cell 0) cs) with
  | None => cs
  | Some minV =>
      map (fun cell =>
             let v := getMeasuredVoltage active cell 0 in
             if Qgtb v (minV + tolVoltage)
             then let cell := setSOC cell (SOC cell - dPassive) in
                  if Qltb (SOC cell) 0 then setSOC cell 0 else cell
             else cell) cs
  end.

(** [Math.max(...voltages) - Math.min(...voltages) < tolVoltage]; on an empty
    list this is [-Infinity - Infinity < tolVoltage], which is true. *)
Definition spreadBelowTol (voltages : list Q) : bool :=
  match Math_max voltages, Math_min voltages with
  | Some hi, Some lo => Qltb (hi - lo) tolVoltage
  | _, _ => true
  end.

(** The branch [if (phase === "charging")] of [updateSimulation]. *)
Definition chargingBranch (s : State) : completion State :=
  let I_effective :=
    if (simulationCase s =? 4)%Z
    then getChargingCurrentCase4 (chargingActive s) (cells s)
    else I_BASE in
  let s :=
    if chargingActive s
    then setCells s (map (chargeCell I_effective) (cells s))
    else s in
  let s :=
    if ((simulationCase s =? 1)%Z || (simulationCase s =? 2)%Z)%bool then
      if existsb (fun cell =>
                    Qgeb (getMeasuredVoltage (chargingActive s) cell I_effective) OVP)
                 (cells s)
      then setPhase (setChargingActive s false) Balancing
      else s
    else s in
  if (simulationCase s =? 3)%Z then
    cs ← activeTransfer (chargingActive s) I_effective (cells s);
    Normal (setCells s cs)
  else Normal s.

(** The branch [else if (phase === "balancing")]. *)
Definition balancingBranch (s : State) : completion State :=
  s ← (if (simulationCase s =? 1)%Z then
         Normal (setCells s (passiveBalance (chargingActive s) (cells s)))
       else if (simulationCase s =? 2)%Z then
         cs ← activeTransfer (chargingActive s) 0 (cells s);
         Normal (setCells s cs)
       else Normal s);
  let voltages :=
    map (fun cell => getMeasuredVoltage (chargingActive s) cell 0) (cells s) in
  Normal (if spreadBelowTol voltages then setPhase s Done else s).

(** The end condition for cases 3 and 4. *)
Definition endCondition (s : State) : State :=
  if (((simulationCase s =? 3)%Z || (simulationCase s =? 4)%Z)
      && match phase s with Charging => true | _ => false end)%bool
  then
    let currentForCalc :=
      if ((simulationCase s =? 4)%Z && chargingActive s)%bool
      then getChargingCurrentCase4 (chargingActive s) (cells s)
      else I_BASE in
    let voltages :=
      map (fun cell => getMeasuredVoltage (chargingActive s) cell currentForCalc)
          (cells s) in
    let allFull := forallb (fun cell => Qgeb (SOC cell) 0.99) (cells s) in
    if (allFull && spreadBelowTol voltages)%bool then setPhase s Done else s
  else s.

(** [updateSimulation()]: one simulated tick. *)
Definition updateSimulation (s : State) : completion State :=
  s ← match phase s with
      | Charging => chargingBranch s
      | Balancing => balancingBranch s
      | Done => Normal s
      end;
  Normal (endCondition s).

(** The first four statements of [resetSimulation()] (index.html 291-294):
    the assignments to the engine's variables, that is the state in which
    the first tick starts.  The case identifier is the number read from the
    selector.  The two closing statements of the source,
    [simulationRunning = true; animate()], run that first tick before the
    function returns and start the frame loop; the function as a whole is
    [Driver.resetSimulation] below, and the ticks are the steps of
    [reachable]. *)
Definition resetSimulation (caseId : Z) : completion State :=
  Normal {| simulationCase := caseId; phase := Charging;
            chargingActive := true; cells := initCells |}.

(** The states of a run: those met after [resetSimulation(caseId)] and any
    number of calls of [updateSimulation]. *)
Inductive reachable (caseId : Z) : State -> Prop :=
| reach_reset s :
    resetSimulation caseId = Normal s -> reachable caseId s
| reach_step s s' :
    reachable caseId s -> updateSimulation s = Normal s' -> reachable caseId s'.

(** [n] ticks in a row. *)
Fixpoint steps (n : nat) (s : State) : completion State :=
  match n with
  | O => Normal s
  | S n' => s' ← updateSimulation s; steps n' s'
  end.

End Engine.

(** ** The stand-alone passive-balancing page of [src/passive.js]

    The page has its own constants, its own state variables [phase],
    [chargingActive] and [cells] (there is no [simulationCase]) and its own
    [updateSimulation], written with indexed [for] loops.  Cells and phases
    have the shape they have in the engine, so the types are shared. *)

(** [for (var i = 0; i < n; i++) body(i)] on the state [acc]. *)
Definition forIndex {St : Type} (n : nat) (body : nat -> St -> St) (acc : St) : St :=
  fold_left (fun acc i => body i acc) (seq 0 n) acc.

Module PassiveJs.

Import Engine.

Definition V_MIN : Q := 3.0.
Definition V_MAX : Q := 4.2.
Definition OVP : Q := 4.2.
Definition I_BASE : Q := 0.005.
Definition dPassive : Q := 0.001.
Definition tolVoltage : Q := 0.005.

Record State : Type := mkState {
  phase : Phase;
  chargingActive : bool;
  cells : list Cell
}.

Definition initCells : list Cell :=
  [ {| capacity := 3.0; SOC := 0.70; R := 0.05 |};
    {| capacity := 2.5; SOC := 0.50; R := 0.08 |};
    {| capacity := 3.5; SOC := 0.90; R := 0.03 |} ].

Definition getOCV (cell : Cell) : Q :=
  V_MIN + (V_MAX - V_MIN) * SOC cell.

Definition getMeasuredVoltage (active : bool) (cell : Cell) (current : Q) : Q :=
  getOCV cell + (if active then current * R cell else 0).

(** Body of the charging loop at index [i]:
    [var cell = cells[i]; cell.SOC += I_BASE / cell.capacity;
     if (cell.SOC > 1) { cell.SOC = 1; }]. *)
Definition chargeAt (i : nat) (cs : list Cell) : list Cell :=
  let cs := alter (fun cell => setSOC cell (SOC cell + I_BASE / capacity cell)) i cs in
  alter (fun cell => if Qgtb (SOC cell) 1 then setSOC cell 1 else cell) i cs.

(** Body of the balancing loop at index [i]; [minVoltage] is [None] when it
    is [+Infinity], and a missing [measuredVoltages[i]] is [undefined], for
    which the comparison is false. *)
Definition dischargeAt (measuredVoltages : list Q) (minVoltage : option Q)
    (i : nat) (cs : list Cell) : list Cell :=
  match measuredVoltages !! i, minVoltage with
  | Some v, Some minV =>
      if Qgtb v (minV + tolVoltage) then
        let cs := alter (fun cell => setSOC cell (SOC cell - dPassive)) i cs in
        alter (fun cell => if Qltb (SOC cell) 0 then setSOC cell 0 else cell) i cs
      else cs
  | _, _ => cs
  end.

Definition spreadBelowTol (voltages : list Q) : bool :=
  match Math_max voltages, Math_min voltages with
  | Some hi, Some lo => Qltb (hi - lo) tolVoltage
  | _, _ => true
  end.

Definition updateSimulation (s : State) : State :=
  match phase s with
  | Charging =>
      let cs := forIndex (length (cells s)) chargeAt (cells s) in
      let overvoltage :=
        existsb (fun cell => Qgeb (getMeasuredVoltage (chargingActive s) cell I_BASE) OVP) cs in
      if overvoltage
      then {| phase := Balancing; chargingActive := false; cells := cs |}
      else {| phase := phase s; chargingActive := chargingActive s; cells := cs |}
  | Balancing =>
      let measuredVoltages :=
        map (fun cell => getMeasuredVoltage (chargingActive s) cell 0) (cells s) in
      let minVoltage := Math_min measuredVoltages in
      let cs := forIndex (length (cells s)) (dischargeAt measuredVoltages minVoltage) (cells s) in
      let measuredVoltages :=
        map (fun cell => getMeasuredVoltage (chargingActive s) cell 0) cs in
      if spreadBelowTol measuredVoltages
      then {| phase := Done; chargingActive := chargingActive s; cells := cs |}
      else {| phase := phase s; chargingActive := chargingActive s; cells := cs |}
  | Done => s
  end.

Definition resetSimulation : State :=
  {| phase := Charging; chargingActive := true; cells := initCells |}.

End PassiveJs.

(** ** The stand-alone passive-balancing page of [src/unnamed/part_000]

    The same page written with [const]/[let] and arrow functions. *)

Module PassiveHtml.

Import Engine.

Definition V_MIN : Q := 3.0.
Definition V_MAX : Q := 4.2.
Definition OVP : Q := 4.2.
Definition I_BASE : Q := 0.005.
Definition dPassive : Q := 0.001.
Definition tolVoltage : Q := 0.005.

Record State : Type := mkState {
  phase : Phase;
  chargingActive : bool;
  cells : list Cell
}.

Definition initCells : list Cell :=
  [ {| capacity := 3.0; SOC := 0.70; R := 0.05 |};
    {| capacity := 2.5; SOC := 0.50; R := 0.08 |};
    {| capacity := 3.5; SOC := 0.90; R := 0.03 |} ].

Definition getOCV (cell : Cell) : Q :=
  V_MIN + (V_MAX - V_MIN) * SOC cell.

Definition getMeasuredVoltage (active : bool) (cell : Cell) (current : Q) : Q :=
  getOCV cell + (if active then current * R cell else 0).

(** Body of the charging loop at index [i]. *)
Definition chargeAt (i : nat) (cs : list Cell) : list Cell :=
  let cs := alter (fun cell => setSOC cell (SOC cell + I_BASE / capacity cell)) i cs in
  alter (fun cell => if Qgtb (SOC cell) 1 then setSOC cell 1 else cell) i cs.

(** Body of the balancing loop at index [i]. *)
Definition dischargeAt (measuredVoltages : list Q) (minVoltage : option Q)
    (i : nat) (cs : list Cell) : list Cell :=
  match measuredVoltages !! i, minVoltage with
  | Some v, Some minV =>
      if Qgtb v (minV + tolVoltage) then
        let cs := alter (fun cell => setSOC cell (SOC cell - dPassive)) i cs in
        alter (fun cell => if Qltb (SOC cell) 0 then setSOC cell 0 else cell) i cs
      else cs
  | _, _ => cs
  end.

Definition spreadBelowTol (voltages : list Q) : bool :=
  match Math_max voltages, Math_min voltages with
  | Some hi, Some lo => Qltb (hi - lo) tolVoltage
  | _, _ => true
  end.

Definition updateSimulation (s : State) : State :=
  match phase s with
  | Charging =>
      let cs := forIndex (length (cells s)) chargeAt (cells s) in
      let overvoltage :=
        existsb (fun cell => Qgeb (getMeasuredVoltage (chargingActive s) cell I_BASE) OVP) cs in
      if overvoltage
      then {| phase := Balancing; chargingActive := false; cells := cs |}
      else {| phase := phase s; chargingActive := chargingActive s; cells := cs |}
  | Balancing =>
      let measuredVoltages :=
        map (fun cell => getMeasuredVoltage (chargingActive s) cell 0) (cells s) in
      let minVoltage := Math_min measuredVoltages in
      let cs := forIndex (length (cells s)) (dischargeAt measuredVoltages minVoltage) (cells s) in
      let measuredVoltages :=
        map (fun cell => getMeasuredVoltage (chargingActive s) cell 0) cs in
      if spreadBelowTol measuredVoltages
      then {| phase := Done; chargingActive := chargingActive s; cells := cs |}
      else {| phase := phase s; chargingActive := chargingActive s; cells := cs |}
  | Done => s
  end.

Definition resetSimulation : State :=
  {| phase := Charging; chargingActive := true; cells := initCells |}.

End PassiveHtml.

(** ** Vocabulary of the statements

    Names for sub-expressions of [updateSimulation] and for the predicates
    the properties are stated with. *)

Module Vocabulary.

Import Engine.

(** The local [I_effective] of the charging branch. *)
Definition effectiveCurrent (s : State) : Q :=
  if (simulationCase s =? 4)%Z
  then getChargingCurrentCase4 (chargingActive s) (cells s)
  else I_BASE.

(** The pack after the SOC increment of the charging branch. *)
Definition chargedCells (s : State) : list Cell :=
  if chargingActive s
  then map (chargeCell (effectiveCurrent s)) (cells s)
  else cells s.

(** The local [overvoltage] of the charging branch of cases 1 and 2. *)
Definition overvoltage (s : State) : bool :=
  existsb (fun cell =>
             Qgeb (getMeasuredVoltage (chargingActive s) cell (effectiveCurrent s)) OVP)
          (chargedCells s).

(** A cell of the data model: positive capacity, SOC between 0 and 1. *)
Definition okCell (c : Cell) : Prop := 0 < capacity c ∧ 0 <= SOC c ∧ SOC c <= 1.

(** The valid case identifiers. *)
Definition validCase (caseId : Z) : Prop := (1 <= caseId <= 4)%Z.

(** A state in the terminal phase. *)
Definition doneState : State :=
  {| simulationCase := 3; phase := Done; chargingActive := true;
     cells := [ mkCell 3.0 1 0.05; mkCell 2.5 1 0.08; mkCell 3.5 1 0.03 ] |}.

(** The run of [n] ticks after [resetSimulation(caseId)], and the state it
    ends in (the run never throws, see [ticks_normal]; [doneState] only
    fills the other branch). *)
Definition ticks (caseId : Z) (n : nat) : completion State :=
  s ← resetSimulation caseId; steps n s.

Definition stateAfter (caseId : Z) (n : nat) : State :=
  match ticks caseId n with
  | Normal s => s
  | Throw _ => doneState
  end.

(** *** The pack when the reset returns *)

(** The fixed pack after the first tick: every cell has gained
    [I_BASE / capacity], and in case 3 [dActive] has moved from the third
    cell (the highest voltage) to the second (the lowest). *)
Definition packAfterFirstTick (caseId : Z) : list Cell :=
  if (caseId =? 3)%Z
  then [ mkCell 3.0 (0.70 + 0.005 / 3.0) 0.05;
         mkCell 2.5 (0.50 + 0.005 / 2.5 + 0.001) 0.08;
         mkCell 3.5 (0.90 + 0.005 / 3.5 - 0.001) 0.03 ]
  else [ mkCell 3.0 (0.70 + 0.005 / 3.0) 0.05;
         mkCell 2.5 (0.50 + 0.005 / 2.5) 0.08;
         mkCell 3.5 (0.90 + 0.005 / 3.5) 0.03 ].

(** *** Donor and receiver selection *)

(** The cell at index [i] has the largest value of [v] in the pack and is
    the first cell, in index order, that has it. *)
Definition firstMaximum (v : Cell -> Q) (cs : list Cell) (i : nat) : Prop :=
  ∃ c, cs !! i = Some c ∧
       (∀ k c', cs !! k = Some c' -> v c' <= v c) ∧
       (∀ k c', cs !! k = Some c' -> v c' == v c -> (i <= k)%nat).

(** The same for the smallest value. *)
Definition firstMinimum (v : Cell -> Q) (cs : list Cell) (i : nat) : Prop :=
  ∃ c, cs !! i = Some c ∧
       (∀ k c', cs !! k = Some c' -> v c <= v c') ∧
       (∀ k c', cs !! k = Some c' -> v c' == v c -> (i <= k)%nat).

(** What the scan knows after the cells of index below [n]. *)
Definition scanInv (v : Cell -> Q) (cs : list Cell) (n : nat) (sc : Scan) : Prop :=
  (∃ c, cs !! maxIndex sc = Some c ∧ v c = maxVoltage sc) ∧
  (∀ k c, (k < n)%nat -> cs !! k = Some c -> v c <= maxVoltage sc) ∧
  (∀ k c, (k < maxIndex sc)%nat -> cs !! k = Some c -> v c < maxVoltage sc) ∧
  (∃ c, cs !! minIndex sc = Some c ∧ v c = minVoltage sc) ∧
  (∀ k c, (k < n)%nat -> cs !! k = Some c -> minVoltage sc <= v c) ∧
  (∀ k c, (k < minIndex sc)%nat -> cs !! k = Some c -> minVoltage sc < v c).

(** The ticks that run the active-transfer block: charging in case 3 and
    balancing in case 2; the current and the pack the block works on. *)
Definition activeTransferStep (s : State) : Prop :=
  (phase s = Charging ∧ simulationCase s = 3%Z) ∨
  (phase s = Balancing ∧ simulationCase s = 2%Z).

Definition transferCurrent (s : State) : Q :=
  match phase s with Charging => effectiveCurrent s | _ => 0 end.

Definition transferPack (s : State) : list Cell :=
  match phase s with Charging => chargedCells s | _ => cells s end.

(** A case-2 balancing state whose first two cells tie for the maximum, and
    its successor: the first cell gave [dActive] to the third. *)
Definition tieState : State :=
  {| simulationCase := 2; phase := Balancing; chargingActive := false;
     cells := [ mkCell 3.0 0.9 0.05; mkCell 2.5 0.9 0.08; mkCell 3.5 0.5 0.03 ] |}.

Definition tieStateNext : State :=
  {| simulationCase := 2; phase := Balancing; chargingActive := false;
     cells := [ mkCell 3.0 (0.9 - 0.001) 0.05; mkCell 2.5 0.9 0.08;
                mkCell 3.5 (0.5 + 0.001) 0.03 ] |}.

(** *** Charging without transfer *)

(** No balancing transfer in a charging tick: the case is not 3, or the
    spread found by the scan does not exceed [tolVoltage]. *)
Definition noTransfer (s : State) : Prop :=
  simulationCase s ≠ 3%Z ∨
  ∃ sc, findDonorReceiver (chargingActive s) (effectiveCurrent s) (chargedCells s)
          = Normal sc ∧
        maxVoltage sc - minVoltage sc <= tolVoltage.

(** A case-3 charging state with a level pack, and its successor. *)
Definition levelState : State :=
  {| simulationCase := 3; phase := Charging; chargingActive := true;
     cells := [ mkCell 3.0 0.5 0.05; mkCell 2.5 0.5 0.08; mkCell 3.5 0.5 0.03 ] |}.

Definition levelStateNext : State :=
  {| simulationCase := 3; phase := Charging; chargingActive := true;
     cells := [ mkCell 3.0 (0.5 + 0.005 / 3.0) 0.05;
                mkCell 2.5 (0.5 + 0.005 / 2.5) 0.08;
                mkCell 3.5 (0.5 + 0.005 / 3.5) 0.03 ] |}.

(** *** The engine seen from the stand-alone pages *)

(** The variables an engine state shares with a page. *)
Definition toPassiveJs (s : State) : PassiveJs.State :=
  {| PassiveJs.phase := phase s;
     PassiveJs.chargingActive := chargingActive s;
     PassiveJs.cells := cells s |}.

Definition toPassiveHtml (s : State) : PassiveHtml.State :=
  {| PassiveHtml.phase := phase s;
     PassiveHtml.chargingActive := chargingActive s;
     PassiveHtml.cells := cells s |}.

Definition jsToHtml (p : PassiveJs.State) : PassiveHtml.State :=
  {| PassiveHtml.phase := PassiveJs.phase p;
     PassiveHtml.chargingActive := PassiveJs.chargingActive p;
     PassiveHtml.cells := PassiveJs.cells p |}.

(** The passive discharge of one cell of voltage [v], given the minimum. *)
Definition dischargeCell (minV : Q) (v : Q) (cell : Cell) : Cell :=
  if Qgtb v (minV + tolVoltage)
  then let cell := setSOC cell (SOC cell - dPassive) in
       if Qltb (SOC cell) 0 then setSOC cell 0 else cell
  else cell.

(** *** States at the edge of a transition *)

(** Case 1, charging, the third cell one increment away from full. *)
Definition nearlyFullState : State :=
  {| simulationCase := 1; phase := Charging; chargingActive := true;
     cells := [ mkCell 3.0 0.8 0.05; mkCell 2.5 0.6 0.08; mkCell 3.5 0.999 0.03 ] |}.

(** Case 2, balancing, a pack whose voltages are within the tolerance. *)
Definition balancedState : State :=
  {| simulationCase := 2; phase := Balancing; chargingActive := false;
     cells := [ mkCell 3.0 0.9 0.05; mkCell 2.5 0.9 0.08; mkCell 3.5 0.902 0.03 ] |}.

(** Case 4, charging, every cell full. *)
Definition fullState : State :=
  {| simulationCase := 4; phase := Charging; chargingActive := true;
     cells := [ mkCell 3.0 1 0.05; mkCell 2.5 1 0.08; mkCell 3.5 1 0.03 ] |}.

(** A case-1 state that no run visits: charging with the flag cleared. *)
Definition stalledState : State :=
  {| simulationCase := 1; phase := Charging; chargingActive := false;
     cells := initCells |}.

(** *** Quantities and predicates of the further properties *)

(** Two cells with the same constants. *)
Definition sameShape (c c' : Cell) : Prop :=
  capacity c' = capacity c ∧ R c' = R c.

(** The total state of charge of a pack. *)
Definition sumSOC (cs : list Cell) : Q :=
  fold_right (fun c acc => SOC c + acc) 0 cs.

(** The IR term of a measured voltage. *)
Definition irDrop (active : bool) (current : Q) (cell : Cell) : Q :=
  if active then current * R cell else 0.

(** The IR terms of a pack differ by no more than the margin the guard of
    the transfer leaves, [tolVoltage - (V_MAX - V_MIN) * dActive]. *)
Definition smallIRSpread (active : bool) (current : Q) (cs : list Cell) : Prop :=
  ∀ c c', In c cs -> In c' cs ->
    irDrop active current c - irDrop active current c' <= 0.0038.

(** The test [v > minVoltage + tolVoltage] that passive balancing makes for
    [cell], a cell of the pack [cs].  (With no cell at all the loop body
    never runs and the test is never made.) *)
Definition dischargeTest (active : bool) (cs : list Cell) (cell : Cell) : bool :=
  match Math_min (map (fun c => getMeasuredVoltage active c 0) cs) with
  | Some minVoltage => Qgtb (getMeasuredVoltage active cell 0) (minVoltage + tolVoltage)
  | None => false
  end.

(** The charging flag agrees with the phase the way it does in a run: set
    while charging, cleared while balancing, and balancing only in cases 1
    and 2. *)
Definition coherent (s : State) : Prop :=
  (phase s = Charging -> chargingActive s = true) ∧
  (phase s = Balancing ->
   chargingActive s = false ∧ (simulationCase s = 1 ∨ simulationCase s = 2)%Z).

(** A case-1 balancing state with two cells above the lowest one, and its
    successor. *)
Definition passiveState : State :=
  {| simulationCase := 1; phase := Balancing; chargingActive := false;
     cells := [ mkCell 3.0 0.8 0.05; mkCell 2.5 0.64 0.08; mkCell 3.5 1 0.03 ] |}.

Definition passiveStateNext : State :=
  {| simulationCase := 1; phase := Balancing; chargingActive := false;
     cells := [ mkCell 3.0 (0.8 - 0.001) 0.05; mkCell 2.5 0.64 0.08;
                mkCell 3.5 (1 - 0.001) 0.03 ] |}.

(** The successors of [nearlyFullState] and of [fullState]. *)
Definition nearlyFullStateNext : State :=
  {| simulationCase := 1; phase := Balancing; chargingActive := false;
     cells := [ mkCell 3.0 (0.8 + 0.005 / 3.0) 0.05;
                mkCell 2.5 (0.6 + 0.005 / 2.5) 0.08;
                mkCell 3.5 1 0.03 ] |}.

Definition fullStateNext : State :=
  {| simulationCase := 4; phase := Done; chargingActive := true;
     cells := [ mkCell 3.0 1 0.05; mkCell 2.5 1 0.08; mkCell 3.5 1 0.03 ] |}.

(** *** How far a run has charged *)

(** A tick count as a number. *)
Definition ofTicks (n : nat) : Q := inject_Z (Z.of_nat n).

(** While charging in case 1 or 2, the third cell has gained
    [I_BASE / 3.5], that is 1/700, per tick. *)
Definition thirdCellCharged (n : nat) (s : State) : Prop :=
  phase s = Charging ∧
  ∀ cell, cells s !! 2%nat = Some cell ->
          1 <= SOC cell ∨ 0.9 + ofTicks n * (1 # 700) <= SOC cell.

(** Every cell of a three-cell pack is at [full] or above its bound. *)
Definition packAbove (full b1 b2 b3 : Q) (cs : list Cell) : Prop :=
  ∀ c1 c2 c3, cs = [c1; c2; c3] ->
    (full <= SOC c1 ∨ b1 <= SOC c1) ∧
    (full <= SOC c2 ∨ b2 <= SOC c2) ∧
    (full <= SOC c3 ∨ b3 <= SOC c3).

(** Case 4: every tick adds at least [I_BASE * 0.1 / capacity] to a cell
    that is not full. *)
Definition taperCharged (n : nat) (s : State) : Prop :=
  phase s = Charging ∧
  packAbove 1 (0.7 + ofTicks n * (1 # 6000)) (0.5 + ofTicks n * (1 # 5000))
              (0.9 + ofTicks n * (1 # 7000)) (cells s).

(** Case 3: every tick adds at least [I_BASE / capacity - dActive] to a
    cell below 0.999. *)
Definition equalizedCharged (n : nat) (s : State) : Prop :=
  phase s = Charging ∧
  packAbove 0.999 (0.7 + ofTicks n * (1 # 1500)) (0.5 + ofTicks n * (1 # 1000))
                  (0.9 + ofTicks n * (3 # 7000)) (cells s).

End Vocabulary.

(** ** The renderer of [src/index.html]

    [drawCells] issues canvas calls; the embedding keeps, for every cell,
    the numbers those calls are made with, and for the two texts made with
    [toFixed] the number the text is the numeral of.  The header texts are
    not modelled.  With a single cell the source divides by zero when it
    computes [gap]; that case is outside the model (the pack has three
    cells). *)

Module Display.

Import Engine.

(** The attributes of [<canvas id="canvas" width="800" height="500">]. *)
Definition canvas_width : Q := 800.
Definition canvas_height : Q := 500.

(** Layout parameters for drawing cells. *)
Definition margin : Q := 100.
Definition cellWidth : Q := 100.
Definition cellHeight : Q := 300.

(** A JavaScript index or length as a number. *)
Definition ofNat (n : nat) : Q := inject_Z (Z.of_nat n).

(** [gap] *)
Definition gap (cs : list Cell) : Q :=
  (canvas_width - 2 * margin - ofNat (length cs) * cellWidth)
  / (ofNat (length cs) - 1).

(** [currentForCalc] of [drawCells]. *)
Definition currentForCalc (s : State) : Q :=
  if ((simulationCase s =? 4)%Z && chargingActive s)%bool
  then getChargingCurrentCase4 (chargingActive s) (cells s)
  else if chargingActive s then I_BASE else 0.

(** What is drawn for one cell: [strokeRect(x, y, cellWidth, cellHeight)],
    [fillRect(x, fillY, cellWidth, fillHeight)], and the two numbers shown:
    [(cell.SOC * 100).toFixed(1)], in tenths of a percent, and
    [getMeasuredVoltage(cell, currentForCalc).toFixed(2)], in hundredths of
    a volt. *)
Record CellPicture : Type := mkCellPicture {
  outlineX : Q; outlineY : Q; fillY : Q; fillHeight : Q;
  shownPercent : Z; shownVoltage : Z
}.

(** Body of [cells.forEach((cell, i) => ...)] in [drawCells]. *)
Definition drawCell (s : State) (i : nat) (cell : Cell) : CellPicture :=
  let x := margin + ofNat i * (cellWidth + gap (cells s)) in
  let y := canvas_height - margin - cellHeight in
  let socDisplay := Qmin (SOC cell) 1 in
  let fillHeight := cellHeight * socDisplay in
  let fillY := y + cellHeight - fillHeight in
  {| outlineX := x; outlineY := y; fillY := fillY; fillHeight := fillHeight;
     shownPercent := toFixed (SOC cell * 100) 1;
     shownVoltage :=
       toFixed (getMeasuredVoltage (chargingActive s) cell (currentForCalc s)) 2 |}.

(** [drawCells()] *)
Definition drawCells (s : State) : list CellPicture :=
  imap (drawCell s) (cells s).

End Display.

(** ** The page of [src/index.html]: reset button and animation loop

    [requestAnimationFrame(animate)] queues one more call of [animate]; the
    queued calls are all the same, so the queue is kept as their number.
    An event is a click on the reset button, with the identifier shown by
    the selector, or the browser running one queued call. *)

Module Driver.

Import Engine.

Record Page : Type := mkPage {
  engine : State;
  simulationRunning : bool;
  pendingFrames : nat
}.

(** [animate()]; [drawCells()] reads the state and changes nothing. *)
Definition animate (p : Page) : completion Page :=
  if negb (simulationRunning p) then Normal p
  else
    s ← updateSimulation (engine p);
    match phase s with
    | Done =>
        Normal {| engine := s; simulationRunning := false;
                  pendingFrames := pendingFrames p |}
    | _ =>
        Normal {| engine := s; simulationRunning := simulationRunning p;
                  pendingFrames := S (pendingFrames p) |}
    end.

(** [resetSimulation()] as a whole: the assignments, then
    [simulationRunning = true; animate()]. *)
Definition resetSimulation (caseId : Z) (p : Page) : completion Page :=
  s ← Engine.resetSimulation caseId;
  animate {| engine := s; simulationRunning := true;
             pendingFrames := pendingFrames p |}.

Inductive Event : Type :=
| Click (caseId : Z)
| Frame.

(** The browser runs the click listener, or one queued call of [animate]
    (none when the queue is empty). *)
Definition handle (e : Event) (p : Page) : completion Page :=
  match e with
  | Click caseId => resetSimulation caseId p
  | Frame =>
      match pendingFrames p with
      | O => Normal p
      | S n =>
          animate {| engine := engine p;
                     simulationRunning := simulationRunning p;
                     pendingFrames := n |}
      end
  end.

Fixpoint handleAll (es : list Event) (p : Page) : completion Page :=
  match es with
  | [] => Normal p
  | e :: es' => p' ← handle e p; handleAll es' p'
  end.

(** The variables as declared, before the script calls anything. *)
Definition declared : Page :=
  {| engine := {| simulationCase := 1; phase := Charging;
                  chargingActive := true; cells := [] |};
     simulationRunning := false;
     pendingFrames := 0 |}.

(** The script ends with [resetSimulation()], run while the page loads; the
    selector then shows its first option, of value 1. *)
Definition loaded : completion Page := resetSimulation 1 declared.

(** The page after it has loaded and handled the events [es]. *)
Definition session (es : list Event) : completion Page :=
  p ← loaded; handleAll es p.

End Driver.

(** The invariant of the page: its engine state is a state of a run of
    its case, the loop runs exactly while the phase is not done, and a
    running loop has a queued call. *)
Definition pageInv (p : Driver.Page) : Prop :=
  Engine.reachable (Engine.simulationCase (Driver.engine p)) (Driver.engine p) ∧
  (Driver.simulationRunning p = true <-> Engine.phase (Driver.engine p) ≠ Engine.Done) ∧
  (Driver.simulationRunning p = true -> (1 <= Driver.pendingFrames p)%nat).


(** * Properties *)

Import Engine Vocabulary.

(** ** The comparison operators decide the order of [Q] *)

Lemma Qltb_lt (x y : Q) : Qltb x y = true <-> x < y.
Proof.
  unfold Qltb. rewrite negb_true_iff, <- not_true_iff_false, Qle_bool_iff.
  split; [apply Qnot_le_lt | apply Qlt_not_le].
Qed.

Lemma Qltb_ge (x y : Q) : Qltb x y = false <-> y <= x.
Proof.
  unfold Qltb. rewrite negb_false_iff. apply Qle_bool_iff.
Qed.

Lemma Qgtb_gt (x y : Q) : Qgtb x y = true <-> y < x.
Proof. apply Qltb_lt. Qed.

Lemma Qgtb_le (x y : Q) : Qgtb x y = false <-> x <= y.
Proof. apply Qltb_ge. Qed.

Lemma Qgeb_ge (x y : Q) : Qgeb x y = true <-> y <= x.
Proof. apply Qle_bool_iff. Qed.

Lemma Qgeb_lt (x y : Q) : Qgeb x y = false <-> x < y.
Proof.
  unfold Qgeb. rewrite <- not_true_iff_false, Qle_bool_iff.
  split; [apply Qnot_le_lt | apply Qlt_not_le].
Qed.

(** Case analysis on a comparison, with the order fact in the context. *)
Ltac cmp_cases :=
  match goal with
  | |- context [Qgtb ?x ?y] =>
      let E := fresh "E" in
      destruct (Qgtb x y) eqn:E;
      [apply Qgtb_gt in E | apply Qgtb_le in E]
  | |- context [Qltb ?x ?y] =>
      let E := fresh "E" in
      destruct (Qltb x y) eqn:E;
      [apply Qltb_lt in E | apply Qltb_ge in E]
  | |- context [Qgeb ?x ?y] =>
      let E := fresh "E" in
      destruct (Qgeb x y) eqn:E;
      [apply Qgeb_ge in E | apply Qgeb_lt in E]
  end.

(** Adding the rational [0] changes nothing, not even the representation. *)
Lemma Qplus_0_r_eq (q : Q) : q + 0 = q.
Proof.
  destruct q as [n d]. unfold Qplus. cbn [Qnum Qden].
  f_equal; lia.
Qed.

(** ** Reset *)

(** The first tick, which [resetSimulation()] runs through [animate()]
    before it returns. *)
Lemma first_tick (caseId : Z) :
  updateSimulation {| simulationCase := caseId; phase := Charging;
                      chargingActive := true; cells := initCells |}
  = Normal {| simulationCase := caseId; phase := Charging;
              chargingActive := true; cells := packAfterFirstTick caseId |}.
Proof.
  unfold packAfterFirstTick.
  destruct (Z.eqb_spec caseId 3) as [-> | H3]; [vm_compute; reflexivity|].
  destruct (Z.eqb_spec caseId 1) as [-> | H1]; [vm_compute; reflexivity|].
  destruct (Z.eqb_spec caseId 2) as [-> | H2]; [vm_compute; reflexivity|].
  destruct (Z.eqb_spec caseId 4) as [-> | H4]; [vm_compute; reflexivity|].
  apply Z.eqb_neq in H1, H2, H3, H4.
  unfold updateSimulation, chargingBranch, endCondition. cbv zeta.
  cbn [phase simulationCase chargingActive cells setCells].
  rewrite H1, H2, H4.
  cbn [orb andb mbind completion_bind phase simulationCase chargingActive cells setCells].
  rewrite H3.
  cbn [orb andb mbind completion_bind phase simulationCase chargingActive cells setCells].
  rewrite H3, H4. reflexivity.
Qed.

Lemma reset_result (caseId : Z) (p : Driver.Page) :
  Driver.resetSimulation caseId p
  = Normal {| Driver.engine :=
                {| simulationCase := caseId; phase := Charging;
                   chargingActive := true; cells := packAfterFirstTick caseId |};
              Driver.simulationRunning := true;
              Driver.pendingFrames := S (Driver.pendingFrames p) |}.
Proof.
  unfold Driver.resetSimulation, resetSimulation, Driver.animate.
  cbn [mbind completion_bind Driver.engine Driver.simulationRunning
       Driver.pendingFrames negb].
  rewrite first_tick. reflexivity.
Qed.

(** C1 (as stated, refuted): with the identifier [1] of the selector, the
    pack that [resetSimulation()] leaves when it returns is not the fixed
    pack: the call of [animate()] that ends the function has already run
    the first tick, and the SOCs are 421/600, 251/500 and 631/700 in place
    of 0.70, 0.50 and 0.90. *)
Lemma reset_returns_a_charged_pack :
  ∃ p', Driver.resetSimulation 1 Driver.declared = Normal p' ∧
        Forall2 (fun cell soc => SOC cell == soc) (cells (Driver.engine p'))
                [421 # 600; 251 # 500; 631 # 700] ∧
        ¬ Forall2 (fun cell soc => SOC cell == soc) (cells (Driver.engine p'))
                  [0.70; 0.50; 0.90].
Proof.
  eexists. split; [apply reset_result|].
  cbn [Driver.engine cells packAfterFirstTick Z.eqb Pos.eqb]. split.
  - repeat (constructor; [cbn [SOC]; reflexivity|]). constructor.
  - intros H. inversion H as [|? ? ? ? H1 _]. cbn [SOC] in H1. discriminate H1.
Qed.

(** C1 (amended): [resetSimulation()] has no InvalidCaseError and no other
    way to raise: for every case identifier, in or out of {1,2,3,4} (the
    selector offers 1 to 4), and whatever the page was doing, it returns
    normally.  It (re)creates the fixed three-cell pack with
    phase = charging and chargingActive = true and runs the first tick on
    it before it returns; at return the identifier is stored as given, the
    phase is still charging, chargingActive is still true, the pack is the
    fixed pack after that tick, the loop runs and one more call of
    [animate] is queued. *)
Theorem reset_never_raises (caseId : Z) (p : Driver.Page) :
  ¬ raises (Driver.resetSimulation caseId p) ∧
  ∃ p', Driver.resetSimulation caseId p = Normal p' ∧
        updateSimulation
          {| simulationCase := caseId; phase := Charging; chargingActive := true;
             cells := [ mkCell 3.0 0.70 0.05; mkCell 2.5 0.50 0.08;
                        mkCell 3.5 0.90 0.03 ] |}
        = Normal (Driver.engine p') ∧
        simulationCase (Driver.engine p') = caseId ∧
        phase (Driver.engine p') = Charging ∧
        chargingActive (Driver.engine p') = true ∧
        cells (Driver.engine p') = packAfterFirstTick caseId ∧
        Driver.simulationRunning p' = true ∧
        Driver.pendingFrames p' = S (Driver.pendingFrames p).
Proof.
  rewrite reset_result. split.
  - intros [e He]. discriminate He.
  - eexists. split; [reflexivity|].
    cbn [Driver.engine Driver.simulationRunning Driver.pendingFrames
         simulationCase phase chargingActive cells].
    split; [exact (first_tick caseId)|]. repeat split.
Qed.

(** ** Measured voltage *)

(** C4: while [chargingActive] is false the measured voltage of a cell is
    its open-circuit voltage [V_MIN + (V_MAX - V_MIN) * soc], whatever the
    current passed, zero or not. *)
Theorem measured_voltage_is_ocv_when_inactive (cell : Cell) (x : Q) :
  getMeasuredVoltage false cell x = getOCV cell ∧
  getOCV cell = V_MIN + (V_MAX - V_MIN) * SOC cell.
Proof.
  split; [|reflexivity].
  unfold getMeasuredVoltage. apply Qplus_0_r_eq.
Qed.

(** ** Case-4 current regulation *)

Lemma running_max_geb (active : bool) (t : Q) (cs : list Cell) (a : Q) :
  Qgeb (fold_left (fun maxV cell =>
                     let v := getMeasuredVoltage active cell I_BASE in
                     if Qgtb v maxV then v else maxV) cs a) t
  = (Qgeb a t || existsb (fun cell => Qgeb (getMeasuredVoltage active cell I_BASE) t) cs)%bool.
Proof.
  revert a. induction cs as [|c cs IH]; intros a; cbn [fold_left existsb].
  - now rewrite orb_false_r.
  - rewrite IH. cbv zeta.
    set (v := getMeasuredVoltage active c I_BASE).
    rewrite orb_assoc. f_equal.
    cmp_cases.
    + destruct (Qgeb a t) eqn:Ea; [|reflexivity].
      apply Qgeb_ge in Ea. cbn. apply Qgeb_ge. lra.
    + destruct (Qgeb v t) eqn:Ev; [|now rewrite orb_false_r].
      apply Qgeb_ge in Ev. rewrite orb_true_r. apply Qgeb_ge. lra.
Qed.

Lemma Math_max_geb (t : Q) (vs : list Q) :
  match Math_max vs with Some m => Qgeb m t | None => false end
  = existsb (fun v => Qgeb v t) vs.
Proof.
  induction vs as [|v vs IH]; [reflexivity|].
  cbn [Math_max existsb]. rewrite <- IH.
  destruct (Math_max vs) as [m|]; [|now rewrite orb_false_r].
  apply eq_true_iff_eq. rewrite orb_true_iff, !Qgeb_ge.
  apply Q.max_le_iff.
Qed.

Lemma existsb_on_map {A B} (f : A -> B) (p : B -> bool) (l : list A) :
  existsb p (map f l) = existsb (fun a => p (f a)) l.
Proof. induction l as [|a l IH]; cbn; [reflexivity | now rewrite IH]. Qed.

(** C5: [getChargingCurrentCase4] returns [I_BASE * 0.1], which is 0.0005,
    when the maximum over the pack of [getMeasuredVoltage(cell, I_BASE)] is
    at least [OVP], which is 4.2, and [I_BASE], which is 0.005, otherwise
    (also when the pack has no cell and so no maximum). *)
Theorem case4_current (active : bool) (cs : list Cell) :
  getChargingCurrentCase4 active cs =
    (if match Math_max (map (fun cell => getMeasuredVoltage active cell I_BASE) cs) with
        | Some maxV => Qgeb maxV OVP
        | None => false
        end
     then I_BASE * 0.1 else I_BASE)
  ∧ I_BASE * 0.1 == 0.0005 ∧ I_BASE = 0.005 ∧ OVP = 4.2.
Proof.
  split; [|repeat split].
  unfold getChargingCurrentCase4. cbv zeta.
  rewrite running_max_geb, Math_max_geb, existsb_on_map.
  replace (Qgeb 0 OVP) with false by reflexivity.
  reflexivity.
Qed.

(** ** The terminal phase *)

(** Outside the charging phase the end condition of cases 3 and 4 does
    nothing. *)
Lemma endCondition_not_charging (s : State) :
  phase s ≠ Charging -> endCondition s = s.
Proof.
  intros Hp. unfold endCondition. destruct (phase s); [congruence | |];
    now rewrite andb_false_r.
Qed.

(** C6: in a state whose phase is done, [updateSimulation] returns normally
    and returns the very same state: case, phase, chargingActive and every
    cell are unchanged. *)
Theorem step_done_is_identity (s : State) :
  phase s = Done -> updateSimulation s = Normal s.
Proof.
  intros Hd. unfold updateSimulation. rewrite Hd. cbn.
  rewrite endCondition_not_charging; [reflexivity | congruence].
Qed.

Lemma step_done_is_identity_witness :
  phase doneState = Done ∧ updateSimulation doneState = Normal doneState.
Proof.
  split; [reflexivity | apply (step_done_is_identity doneState); reflexivity].
Defined.

(** ** One tick, branch by branch *)

Lemma bind_Normal {A B} (m : completion A) (f : A -> completion B) (b : B) :
  (x ← m; f x) = Normal b -> ∃ a, m = Normal a ∧ f a = Normal b.
Proof. destruct m as [a|e]; cbn; [eauto | discriminate]. Qed.

Lemma chargingBranch_inv (s s1 : State) :
  chargingBranch s = Normal s1 ->
  simulationCase s1 = simulationCase s ∧
  ( (( simulationCase s = 1 ∨ simulationCase s = 2)%Z ∧ overvoltage s = true ∧
     phase s1 = Balancing ∧ chargingActive s1 = false ∧
     cells s1 = chargedCells s)
  ∨ (phase s1 = phase s ∧ chargingActive s1 = chargingActive s ∧
     ( (simulationCase s ≠ 3%Z ∧ cells s1 = chargedCells s ∧
        ((simulationCase s = 1 ∨ simulationCase s = 2)%Z -> overvoltage s = false))
     ∨ (simulationCase s = 3%Z ∧
        ∃ sc, findDonorReceiver (chargingActive s) (effectiveCurrent s) (chargedCells s)
                = Normal sc ∧
              cells s1 = transferCharge sc (chargedCells s)) )) ).
Proof.
  unfold chargingBranch. cbv zeta.
  fold (effectiveCurrent s).
  replace (if chargingActive s
           then setCells s (map (chargeCell (effectiveCurrent s)) (cells s))
           else s) with (setCells s (chargedCells s))
    by (unfold chargedCells; destruct s as [c p [] cs]; reflexivity).
  cbn [setCells simulationCase chargingActive cells phase].
  fold (overvoltage s).
  destruct (Z.eqb_spec (simulationCase s) 1) as [E1|N1];
    [|destruct (Z.eqb_spec (simulationCase s) 2) as [E2|N2]]; cbn [orb].
  1,2: destruct (overvoltage s) eqn:Eo;
       cbn [setPhase setChargingActive setCells simulationCase];
       (destruct (Z.eqb_spec (simulationCase s) 3); [lia|]);
       intros [= <-]; cbn; (split; [reflexivity|]);
       [left; tauto | right; repeat split; left; tauto].
  cbn [setPhase setChargingActive setCells simulationCase chargingActive cells].
  destruct (Z.eqb_spec (simulationCase s) 3) as [E3|N3].
  - intros H. apply bind_Normal in H as (cs & Hcs & [= <-]).
    apply bind_Normal in Hcs as (sc & Hsc & [= <-]). cbn.
    split; [reflexivity|]. right. repeat split. right. eauto.
  - intros [= <-]. cbn. split; [reflexivity|]. right. repeat split.
    left. repeat split; auto. lia.
Qed.

Lemma endCondition_inv (s : State) :
  simulationCase (endCondition s) = simulationCase s ∧
  chargingActive (endCondition s) = chargingActive s ∧
  cells (endCondition s) = cells s ∧
  (phase (endCondition s) = phase s ∨
   (phase s = Charging ∧ phase (endCondition s) = Done ∧
    (simulationCase s = 3 ∨ simulationCase s = 4)%Z)).
Proof.
  unfold endCondition. cbv zeta.
  destruct (_ && _)%bool eqn:Eguard; [|tauto].
  apply andb_true_iff in Eguard as [Ecase Ephase].
  destruct (_ && _)%bool; [|tauto].
  cbn. repeat split. right.
  destruct (phase s); try discriminate.
  repeat split. apply orb_true_iff in Ecase. lia.
Qed.

Lemma balancingBranch_inv (s s1 : State) :
  balancingBranch s = Normal s1 ->
  simulationCase s1 = simulationCase s ∧
  chargingActive s1 = chargingActive s ∧
  (phase s1 = phase s ∨ phase s1 = Done) ∧
  ( (simulationCase s = 1%Z ∧
     cells s1 = passiveBalance (chargingActive s) (cells s))
  ∨ (simulationCase s = 2%Z ∧
     ∃ sc, findDonorReceiver (chargingActive s) 0 (cells s) = Normal sc ∧
           cells s1 = transferCharge sc (cells s))
  ∨ (simulationCase s ≠ 1%Z ∧ simulationCase s ≠ 2%Z ∧ cells s1 = cells s) ).
Proof.
  unfold balancingBranch. intros H.
  apply bind_Normal in H as (s2 & Hs2 & [= <-]).
  assert (simulationCase s2 = simulationCase s ∧
          chargingActive s2 = chargingActive s ∧ phase s2 = phase s ∧
          ( (simulationCase s = 1%Z ∧
             cells s2 = passiveBalance (chargingActive s) (cells s))
          ∨ (simulationCase s = 2%Z ∧
             ∃ sc, findDonorReceiver (chargingActive s) 0 (cells s) = Normal sc ∧
                   cells s2 = transferCharge sc (cells s))
          ∨ (simulationCase s ≠ 1%Z ∧ simulationCase s ≠ 2%Z ∧ cells s2 = cells s) ))
    as (Hc & Ha & Hp & Hcells).
  { destruct (Z.eqb_spec (simulationCase s) 1) as [E1|N1];
      [|destruct (Z.eqb_spec (simulationCase s) 2) as [E2|N2]].
    - injection Hs2 as <-. cbn. tauto.
    - apply bind_Normal in Hs2 as (cs & Hcs & [= <-]).
      apply bind_Normal in Hcs as (sc & Hsc & [= <-]). cbn.
      repeat split. right. left. eauto.
    - injection Hs2 as <-. tauto. }
  destruct (spreadBelowTol _); cbn; rewrite ?Hp; tauto.
Qed.

Lemma updateSimulation_inv (s s' : State) :
  updateSimulation s = Normal s' ->
  ∃ s1, s' = endCondition s1 ∧
        match phase s with
        | Charging => chargingBranch s = Normal s1
        | Balancing => balancingBranch s = Normal s1
        | Done => s1 = s
        end.
Proof.
  unfold updateSimulation. intros H.
  apply bind_Normal in H as (s1 & Hs1 & [= <-]).
  exists s1. split; [reflexivity|].
  destruct (phase s); [assumption | assumption | congruence].
Qed.

Lemma regulated_current_cases (active : bool) (cs : list Cell) :
  getChargingCurrentCase4 active cs = I_BASE * 0.1 ∨
  getChargingCurrentCase4 active cs = I_BASE.
Proof. unfold getChargingCurrentCase4. cbv zeta. destruct (Qgeb _ _); auto. Qed.

Lemma effectiveCurrent_pos (s : State) : 0 < effectiveCurrent s.
Proof.
  unfold effectiveCurrent.
  destruct (_ =? _)%Z; [|reflexivity].
  destruct (regulated_current_cases (chargingActive s) (cells s)) as [-> | ->];
    reflexivity.
Qed.

Lemma Qdiv_nonneg (a b : Q) : 0 <= a -> 0 < b -> 0 <= a / b.
Proof.
  intros Ha Hb. unfold Qdiv. apply Qmult_le_0_compat; [assumption|].
  apply Qlt_le_weak, Qinv_lt_0_compat, Hb.
Qed.

Lemma chargeCell_ok (I : Q) (c : Cell) : 0 <= I -> okCell c -> okCell (chargeCell I c).
Proof.
  intros HI (Hcap & H0 & H1). unfold chargeCell. cbv zeta.
  pose proof (Qdiv_nonneg I (capacity c) HI Hcap) as Hq.
  cbn [SOC setSOC]. cmp_cases; unfold okCell; cbn; repeat split; try assumption; lra.
Qed.

Lemma chargedCells_ok (s : State) :
  Forall okCell (cells s) -> Forall okCell (chargedCells s).
Proof.
  intros H. unfold chargedCells. destruct (chargingActive s); [|assumption].
  apply Forall_map. eapply Forall_impl; [exact H|].
  intros c Hc. apply chargeCell_ok; [|assumption].
  apply Qlt_le_weak, effectiveCurrent_pos.
Qed.

Lemma lookup_alter_at {A} (f : A -> A) (i : nat) (l : list A) (k : nat) :
  alter f i l !! k = (if bool_decide (i = k) then f else id) <$> l !! k.
Proof.
  case_bool_decide as E.
  - subst. apply list_lookup_alter_eq.
  - rewrite list_lookup_alter_ne by assumption. now destruct (l !! k).
Qed.

Lemma transferCharge_lookup (sc : Scan) (cs : list Cell) (k : nat) (x : Cell) :
  transferCharge sc cs !! k = Some x ->
  ∃ c, cs !! k = Some c ∧ capacity x = capacity c ∧ R x = R c ∧
       (0 <= SOC c ∧ SOC c <= 1 -> 0 <= SOC x ∧ SOC x <= 1).
Proof.
  unfold transferCharge. destruct (Qgtb _ _).
  2:{ intros Hx. exists x. tauto. }
  cbv zeta. rewrite !lookup_alter_at.
  destruct (cs !! k) as [c|]; [|discriminate].
  cbn [fmap option_fmap option_map]. intros [= <-]. exists c.
  split; [reflexivity|].
  unfold dActive.
  do 2 case_bool_decide; cbn [id SOC setSOC];
    repeat (cmp_cases; cbn [id SOC setSOC capacity R] in * );
    (split; [reflexivity|]); (split; [reflexivity|]); intros [? ?]; split; lra.
Qed.

Lemma transferCharge_ok (sc : Scan) (cs : list Cell) :
  Forall okCell cs -> Forall okCell (transferCharge sc cs).
Proof.
  intros H. apply Forall_lookup. intros k x Hx.
  apply transferCharge_lookup in Hx as (c & Hc & Hcap & _ & Hsoc).
  destruct (Forall_lookup_1 _ _ _ _ H Hc) as (? & ? & ?).
  unfold okCell. rewrite Hcap. tauto.
Qed.

Lemma transferCharge_length (sc : Scan) (cs : list Cell) :
  length (transferCharge sc cs) = length cs.
Proof.
  unfold transferCharge. destruct (Qgtb _ _); [|reflexivity].
  cbv zeta. now rewrite !length_alter.
Qed.

Lemma passiveBalance_ok (active : bool) (cs : list Cell) :
  Forall okCell cs -> Forall okCell (passiveBalance active cs).
Proof.
  intros H. unfold passiveBalance. destruct (Math_min _); [|assumption].
  apply Forall_map. eapply Forall_impl; [exact H|].
  intros c (Hcap & H0 & H1). cbv zeta. unfold dPassive, okCell.
  repeat (cmp_cases; cbn [SOC setSOC capacity] in * ); repeat split; try assumption; lra.
Qed.

Lemma passiveBalance_length (active : bool) (cs : list Cell) :
  length (passiveBalance active cs) = length cs.
Proof.
  unfold passiveBalance. destruct (Math_min _); [|reflexivity].
  apply length_map.
Qed.

Lemma chargedCells_length (s : State) : length (chargedCells s) = length (cells s).
Proof. unfold chargedCells. destruct (chargingActive s); [apply length_map|reflexivity]. Qed.

(** ** One tick as a whole *)

(** What a tick does to the case, the phase and the charging flag. *)
Lemma step_phase (s s' : State) :
  updateSimulation s = Normal s' ->
  simulationCase s' = simulationCase s ∧
  match phase s with
  | Charging =>
      (phase s' = Charging ∧ chargingActive s' = chargingActive s)
      ∨ (phase s' = Balancing ∧ chargingActive s' = false ∧
         (simulationCase s = 1 ∨ simulationCase s = 2)%Z)
      ∨ (phase s' = Done ∧ chargingActive s' = chargingActive s ∧
         (simulationCase s = 3 ∨ simulationCase s = 4)%Z)
  | Balancing =>
      (phase s' = Balancing ∨ phase s' = Done) ∧
      chargingActive s' = chargingActive s
  | Done => s' = s
  end.
Proof.
  intros H. apply updateSimulation_inv in H as (s1 & -> & H1).
  destruct (endCondition_inv s1) as (Ec & Ea & _ & Ep).
  rewrite Ec, Ea.
  destruct (phase s) eqn:Hp.
  - apply chargingBranch_inv in H1 as (Hc & Hb). rewrite Hc in *.
    split; [reflexivity|].
    destruct Hb as [(Hcase & _ & Hp1 & Ha1 & _) | (Hp1 & Ha1 & _)].
    + right. left. destruct Ep as [Ep | (Ep & _)]; [|congruence].
      rewrite Ep. auto.
    + rewrite Hp in Hp1. rewrite Ha1.
      destruct Ep as [Ep | (_ & Ep & Hcase)]; [left | right; right].
      * rewrite Ep. auto.
      * auto.
  - apply balancingBranch_inv in H1 as (Hc & Ha1 & Hp1 & _).
    rewrite Hc, Ha1, Hp in *. split; [reflexivity|]. split; [|reflexivity].
    destruct Ep as [Ep | (Ep & _)]; [rewrite Ep; exact Hp1|].
    destruct Hp1; congruence.
  - subst s1. split; [reflexivity|]. apply endCondition_not_charging. congruence.
Qed.

(** What a tick does to the pack: well-formed cells stay well-formed and
    the number of cells does not change. *)
Lemma step_cells (s s' : State) :
  updateSimulation s = Normal s' ->
  Forall okCell (cells s) ->
  Forall okCell (cells s') ∧ length (cells s') = length (cells s).
Proof.
  intros H Hok. apply updateSimulation_inv in H as (s1 & -> & H1).
  destruct (endCondition_inv s1) as (_ & _ & -> & _).
  destruct (phase s).
  - apply chargingBranch_inv in H1 as (_ & Hb).
    pose proof (chargedCells_ok s Hok) as Hch.
    pose proof (chargedCells_length s) as Hlen.
    destruct Hb as [(_ & _ & _ & _ & ->)
                   | (_ & _ & [(_ & -> & _) | (_ & sc & _ & ->)])];
      rewrite ?transferCharge_length; auto using transferCharge_ok.
  - apply balancingBranch_inv in H1 as (_ & _ & _ & Hb).
    destruct Hb as [(_ & ->) | [(_ & sc & _ & ->) | (_ & _ & ->)]];
      rewrite ?transferCharge_length, ?passiveBalance_length;
      auto using transferCharge_ok, passiveBalance_ok.
  - subst s1. auto.
Qed.

(** ** Invariants of a run *)

Lemma initCells_ok : Forall okCell initCells.
Proof.
  unfold initCells, okCell.
  repeat (constructor; [cbn; repeat split; lra|]). constructor.
Qed.

Lemma reachable_inv (caseId : Z) (s : State) :
  reachable caseId s ->
  simulationCase s = caseId ∧
  Forall okCell (cells s) ∧
  length (cells s) = 3%nat ∧
  (phase s = Charging -> chargingActive s = true) ∧
  (phase s = Balancing -> (caseId = 1 ∨ caseId = 2)%Z).
Proof.
  induction 1 as [s Hr | s s' Hs IH Hstep].
  - injection Hr as <-. cbn. repeat split; auto using initCells_ok.
    discriminate.
  - destruct IH as (Hc & Hok & Hlen & Hact & Hbal).
    destruct (step_phase s s' Hstep) as (Hc' & Hp).
    destruct (step_cells s s' Hstep Hok) as (Hok' & Hlen').
    rewrite Hc', Hlen'. repeat split; auto.
    + intros Hp'. destruct (phase s) eqn:E.
      * destruct Hp as [(_ & ->) | [(? & _) | (? & _)]]; [auto | congruence ..].
      * destruct Hp as ([?|?] & _); congruence.
      * subst s'. congruence.
    + intros Hp'. destruct (phase s) eqn:E.
      * destruct Hp as [(? & _) | [(_ & _ & ?) | (? & _)]]; [congruence | lia | congruence].
      * auto.
      * subst s'. congruence.
Qed.

(** A tick of a run never throws. *)
Lemma findDonorReceiver_total (active : bool) (current : Q) (cs : list Cell) :
  cs ≠ [] -> ∃ sc, findDonorReceiver active current cs = Normal sc.
Proof. destruct cs; [congruence | cbn; eauto]. Qed.

Lemma step_total (s : State) :
  cells s ≠ [] -> ∃ s', updateSimulation s = Normal s'.
Proof.
  intros Hne. unfold updateSimulation.
  destruct (phase s); [| |cbn; eauto].
  - unfold chargingBranch. cbv zeta.
    match goal with
    | |- context [if (simulationCase ?x =? 3)%Z then _ else _] =>
        destruct (simulationCase x =? 3)%Z; [|cbn; eauto];
        destruct (findDonorReceiver_total (chargingActive x)
                    (if (simulationCase s =? 4)%Z
                     then getChargingCurrentCase4 (chargingActive s) (cells s)
                     else I_BASE) (cells x)) as [sc Hsc]
    end.
    + destruct (chargingActive s); cbn;
        repeat (match goal with |- context [if ?b then _ else _] => destruct b end; cbn);
        try assumption; destruct (cells s); cbn; congruence.
    + unfold activeTransfer. rewrite Hsc. cbn. eauto.
  - unfold balancingBranch.
    destruct (simulationCase s =? 1)%Z; [cbn; eauto|].
    destruct (simulationCase s =? 2)%Z; [|cbn; eauto].
    destruct (findDonorReceiver_total (chargingActive s) 0 (cells s) Hne) as [sc Hsc].
    unfold activeTransfer. rewrite Hsc. cbn. eauto.
Qed.

Lemma reachable_step_total (caseId : Z) (s : State) :
  reachable caseId s -> ∃ s', updateSimulation s = Normal s'.
Proof.
  intros Hr. apply step_total.
  destruct (reachable_inv caseId s Hr) as (_ & _ & Hlen & _).
  destruct (cells s); [discriminate | congruence].
Qed.

Lemma steps_reachable (caseId : Z) (n : nat) (s s' : State) :
  reachable caseId s -> steps n s = Normal s' -> reachable caseId s'.
Proof.
  revert s. induction n as [|n IH]; intros s Hr H; cbn in H.
  - now injection H as <-.
  - apply bind_Normal in H as (s1 & H1 & H2).
    eapply IH; [|exact H2]. eapply reach_step; eassumption.
Qed.

Lemma ticks_reachable (caseId : Z) (n : nat) (s : State) :
  ticks caseId n = Normal s -> reachable caseId s.
Proof.
  unfold ticks. intros H. apply bind_Normal in H as (s0 & H0 & H1).
  eapply steps_reachable; [|exact H1]. now apply reach_reset.
Qed.

Lemma steps_normal (caseId : Z) (n : nat) (s : State) :
  reachable caseId s -> ∃ s', steps n s = Normal s'.
Proof.
  revert s. induction n as [|n IH]; intros s Hr; cbn; [eauto|].
  destruct (reachable_step_total caseId s Hr) as [s1 H1]. rewrite H1. cbn.
  apply IH. eapply reach_step; eassumption.
Qed.

(** Every run of every length returns normally. *)
Lemma ticks_normal (caseId : Z) (n : nat) : ∃ s, ticks caseId n = Normal s.
Proof.
  unfold ticks. cbn. eapply steps_normal. now apply reach_reset.
Qed.

(** ** SOC bounds *)

(** C2: for every case identifier in {1,2,3,4}, every state reached from
    reset by any number of ticks, and every cell of its pack,
    0 <= soc <= 1. *)
Theorem soc_bounds (caseId : Z) (s : State) :
  validCase caseId -> reachable caseId s ->
  ∀ cell, In cell (cells s) -> 0 <= SOC cell <= 1.
Proof.
  intros _ Hr cell Hin.
  destruct (reachable_inv caseId s Hr) as (_ & Hok & _).
  rewrite Forall_forall in Hok. apply list_elem_of_In in Hin.
  destruct (Hok cell Hin) as (_ & H0 & H1). auto.
Qed.

Lemma soc_bounds_witness :
  validCase 3 ∧ reachable 3 (stateAfter 3 2) ∧
  ∀ cell, In cell (cells (stateAfter 3 2)) -> 0 <= SOC cell <= 1.
Proof.
  assert (Hv : validCase 3) by (unfold validCase; lia).
  assert (Hr : reachable 3 (stateAfter 3 2))
    by (apply (ticks_reachable 3 2); vm_compute; reflexivity).
  exact (conj Hv (conj Hr (soc_bounds 3 (stateAfter 3 2) Hv Hr))).
Defined.

(** ** The phase state machine *)

(** C3: in a run started by a valid reset, a tick either keeps the phase or
    makes one of the transitions charging → balancing (cases 1 and 2),
    charging → done (cases 3 and 4), balancing → done (cases 1 and 2).  In
    particular the phase never returns to charging from balancing or done,
    cases 3 and 4 never are in or enter balancing, and cases 1 and 2 never go
    from charging to done in one tick. *)
Theorem phase_transitions (caseId : Z) (s s' : State) :
  validCase caseId -> reachable caseId s -> updateSimulation s = Normal s' ->
  ( phase s' = phase s
    ∨ (phase s = Charging ∧ phase s' = Balancing ∧ (caseId = 1 ∨ caseId = 2)%Z)
    ∨ (phase s = Charging ∧ phase s' = Done ∧ (caseId = 3 ∨ caseId = 4)%Z)
    ∨ (phase s = Balancing ∧ phase s' = Done ∧ (caseId = 1 ∨ caseId = 2)%Z) )
  ∧ (phase s ≠ Charging -> phase s' ≠ Charging)
  ∧ ((caseId = 3 ∨ caseId = 4)%Z -> phase s ≠ Balancing ∧ phase s' ≠ Balancing)
  ∧ ((caseId = 1 ∨ caseId = 2)%Z -> phase s = Charging -> phase s' ≠ Done).
Proof.
  intros _ Hr Hstep.
  destruct (reachable_inv caseId s Hr) as (Hc & _ & _ & _ & Hbal).
  destruct (reachable_inv caseId s' (reach_step _ _ _ Hr Hstep))
    as (_ & _ & _ & _ & Hbal').
  destruct (step_phase s s' Hstep) as (_ & Hp). rewrite Hc in Hp.
  destruct (phase s) eqn:E; (split; [|split; [|split]]).
  - destruct Hp as [(-> & _) | [(-> & _ & ?) | (-> & _ & ?)]]; auto 6.
  - congruence.
  - intros Hcase. split; [discriminate|]. intros HB. specialize (Hbal' HB). lia.
  - intros Hcase _ Hd.
    destruct Hp as [(? & _) | [(? & _) | (_ & _ & ?)]]; [congruence .. | lia].
  - specialize (Hbal eq_refl). destruct Hp as ([-> | ->] & _); auto 6.
  - destruct Hp as ([? | ?] & _); congruence.
  - specialize (Hbal eq_refl). lia.
  - discriminate.
  - subst s'. auto.
  - subst s'. congruence.
  - subst s'. intros Hcase. split; [discriminate|].
    intros HB. congruence.
  - discriminate.
Qed.

Lemma phase_transitions_witness :
  validCase 1 ∧ reachable 1 (stateAfter 1 1) ∧
  updateSimulation (stateAfter 1 1) = Normal (stateAfter 1 2) ∧
  (phase (stateAfter 1 1) ≠ Charging -> phase (stateAfter 1 2) ≠ Charging).
Proof.
  assert (Hv : validCase 1) by (unfold validCase; lia).
  assert (Hr : reachable 1 (stateAfter 1 1))
    by (apply (ticks_reachable 1 1); vm_compute; reflexivity).
  assert (Hs : updateSimulation (stateAfter 1 1) = Normal (stateAfter 1 2))
    by (vm_compute; reflexivity).
  pose proof (phase_transitions 1 (stateAfter 1 1) (stateAfter 1 2) Hv Hr Hs) as H.
  exact (conj Hv (conj Hr (conj Hs (proj1 (proj2 H))))).
Defined.

(** Each of the three transitions is taken by some tick. *)
Example transition_charging_balancing :
  phase nearlyFullState = Charging ∧
  match updateSimulation nearlyFullState with
  | Normal s' => phase s' = Balancing ∧ chargingActive s' = false
  | Throw _ => False
  end.
Proof. vm_compute. repeat split. Qed.

Example transition_balancing_done :
  phase balancedState = Balancing ∧
  match updateSimulation balancedState with
  | Normal s' => phase s' = Done
  | Throw _ => False
  end.
Proof. vm_compute. repeat split. Qed.

Example transition_charging_done :
  phase fullState = Charging ∧
  match updateSimulation fullState with
  | Normal s' => phase s' = Done ∧ chargingActive s' = true
  | Throw _ => False
  end.
Proof. vm_compute. repeat split. Qed.

(** ** Charging implies the charging flag *)

(** C9: in every state of a run started by a valid reset, phase = charging
    implies chargingActive = true; the flag goes from true to false only in
    a tick that starts in charging and leaves it; so in the charging branch
    the guard of the SOC increment holds and every cell is incremented. *)
Theorem charging_implies_active (caseId : Z) (s : State) :
  validCase caseId -> reachable caseId s ->
  (phase s = Charging -> chargingActive s = true)
  ∧ (∀ s', updateSimulation s = Normal s' ->
           chargingActive s = true -> chargingActive s' = false ->
           phase s = Charging ∧ phase s' ≠ Charging)
  ∧ (phase s = Charging ->
     chargedCells s = map (chargeCell (effectiveCurrent s)) (cells s)).
Proof.
  intros _ Hr.
  destruct (reachable_inv caseId s Hr) as (_ & _ & _ & Hact & _).
  split; [exact Hact | split].
  - intros s' Hstep Ha Ha'.
    destruct (step_phase s s' Hstep) as (_ & Hp).
    destruct (phase s).
    + split; [reflexivity|].
      destruct Hp as [(_ & ?) | [(? & _) | (_ & ? & _)]]; congruence.
    + destruct Hp as (_ & Hp). congruence.
    + subst s'. congruence.
  - intros Hp. unfold chargedCells. now rewrite (Hact Hp).
Qed.

Lemma charging_implies_active_witness :
  validCase 2 ∧ reachable 2 (stateAfter 2 3) ∧
  phase (stateAfter 2 3) = Charging ∧ chargingActive (stateAfter 2 3) = true.
Proof.
  assert (Hv : validCase 2) by (unfold validCase; lia).
  assert (Hr : reachable 2 (stateAfter 2 3))
    by (apply (ticks_reachable 2 3); vm_compute; reflexivity).
  assert (Hp : phase (stateAfter 2 3) = Charging) by (vm_compute; reflexivity).
  destruct (charging_implies_active 2 (stateAfter 2 3) Hv Hr) as (Hact & _).
  exact (conj Hv (conj Hr (conj Hp (Hact Hp)))).
Defined.

(** ** Donor and receiver selection *)

Lemma scanCell_inv (active : bool) (current : Q) (cs : list Cell)
    (i : nat) (cell : Cell) (sc : Scan) :
  cs !! i = Some cell ->
  scanInv (fun c => getMeasuredVoltage active c current) cs i sc ->
  scanInv (fun c => getMeasuredVoltage active c current) cs (S i)
          (scanCell active current sc i cell).
Proof.
  intros Hi (Hmax & Hle & Hlt & Hmin & Hge & Hgt).
  unfold scanCell. cbv zeta.
  set (v := getMeasuredVoltage active cell current).
  assert (Hlast : ∀ k c, (k < S i)%nat -> cs !! k = Some c ->
                         (k < i)%nat ∨ getMeasuredVoltage active c current = v).
  { intros k c Hk Hc. destruct (decide (k = i)) as [->|]; [right|left; lia].
    rewrite Hi in Hc. now injection Hc as <-. }
  destruct (Qgtb v (maxVoltage sc)) eqn:Emax;
    [apply Qgtb_gt in Emax | apply Qgtb_le in Emax];
    cbn [maxIndex minIndex maxVoltage minVoltage];
    (destruct (Qltb v (minVoltage sc)) eqn:Emin;
     [apply Qltb_lt in Emin | apply Qltb_ge in Emin]);
    unfold scanInv; cbn [maxIndex minIndex maxVoltage minVoltage];
    (split; [|split; [|split; [|split; [|split]]]]);
    try solve [ eauto
              | assumption
              | intros k c Hk Hc;
                destruct (Hlast k c Hk Hc) as [Hk' | ->];
                [ pose proof (Hle k c Hk' Hc); pose proof (Hge k c Hk' Hc); lra
                | lra ]
              | intros k c Hk Hc;
                pose proof (Hle k c Hk Hc); pose proof (Hge k c Hk Hc); lra ].
Qed.

Lemma forEachFrom_scan_inv (active : bool) (current : Q) (cs rest : list Cell) :
  ∀ (i : nat) (sc : Scan),
    (∀ j c, rest !! j = Some c -> cs !! (i + j)%nat = Some c) ->
    scanInv (fun c => getMeasuredVoltage active c current) cs i sc ->
    scanInv (fun c => getMeasuredVoltage active c current) cs (i + length rest)
            (forEachFrom (scanCell active current) i rest sc).
Proof.
  induction rest as [|cell rest IH]; intros i sc Hrest Hinv; cbn [forEachFrom length].
  - now rewrite Nat.add_0_r.
  - replace (i + S (length rest))%nat with (S i + length rest)%nat by lia.
    apply IH.
    + intros j c Hj. replace (S i + j)%nat with (i + S j)%nat by lia.
      now apply Hrest.
    + apply scanCell_inv; [|assumption].
      rewrite <- (Nat.add_0_r i). now apply Hrest.
Qed.

Lemma findDonorReceiver_first (active : bool) (current : Q) (cs : list Cell) (sc : Scan) :
  findDonorReceiver active current cs = Normal sc ->
  firstMaximum (fun c => getMeasuredVoltage active c current) cs (maxIndex sc) ∧
  firstMinimum (fun c => getMeasuredVoltage active c current) cs (minIndex sc).
Proof.
  unfold findDonorReceiver. destruct cs as [|cell0 cs']; [discriminate|].
  set (cs := cell0 :: cs').
  set (v := fun c => getMeasuredVoltage active c current).
  intros Hsc.
  assert (Hinv : scanInv v cs (0 + length cs) sc).
  { injection Hsc as <-.
    change (scanInv v cs (0 + length cs)
              (forEachFrom (scanCell active current) 0 cs
                 {| maxIndex := 0; minIndex := 0;
                    maxVoltage := v cell0; minVoltage := v cell0 |})).
    apply forEachFrom_scan_inv; [auto|].
    unfold scanInv. cbn [maxIndex minIndex maxVoltage minVoltage].
    repeat split; try (exists cell0; split; reflexivity); intros; lia. }
  clear Hsc.
  destruct Hinv as ((cmax & Hcmax & Hvmax) & Hle & Hlt &
                    (cmin & Hcmin & Hvmin) & Hge & Hgt).
  cbn [plus] in Hle, Hge.
  split.
  - exists cmax. split; [exact Hcmax|]. rewrite Hvmax. split.
    + intros k c Hc. apply (Hle k c); [|exact Hc]. eapply lookup_lt_Some, Hc.
    + intros k c Hc Heq.
      destruct (le_lt_dec (maxIndex sc) k) as [|Hk]; [assumption|].
      specialize (Hlt k c Hk Hc). lra.
  - exists cmin. split; [exact Hcmin|]. rewrite Hvmin. split.
    + intros k c Hc. apply (Hge k c); [|exact Hc]. eapply lookup_lt_Some, Hc.
    + intros k c Hc Heq.
      destruct (le_lt_dec (minIndex sc) k) as [|Hk]; [assumption|].
      specialize (Hgt k c Hk Hc). lra.
Qed.

(** C7: in the active-transfer block (charging in case 3, balancing in
    case 2) the donor index is the first index, in scan order, of a cell of
    maximum measured voltage and the receiver index is the first index of a
    cell of minimum measured voltage: among cells of exactly equal maximum
    (or minimum) voltage the lowest index is chosen.  The pack after the
    tick is the transfer between these two indices. *)
Theorem tie_break_first_occurrence (s s' : State) :
  activeTransferStep s -> updateSimulation s = Normal s' ->
  ∃ sc,
    findDonorReceiver (chargingActive s) (transferCurrent s) (transferPack s)
      = Normal sc ∧
    cells s' = transferCharge sc (transferPack s) ∧
    firstMaximum (fun c => getMeasuredVoltage (chargingActive s) c (transferCurrent s))
                 (transferPack s) (maxIndex sc) ∧
    firstMinimum (fun c => getMeasuredVoltage (chargingActive s) c (transferCurrent s))
                 (transferPack s) (minIndex sc).
Proof.
  intros Hat Hstep. unfold transferCurrent, transferPack.
  apply updateSimulation_inv in Hstep as (s1 & -> & H1).
  destruct (endCondition_inv s1) as (_ & _ & -> & _).
  destruct Hat as [(Hp & Hc) | (Hp & Hc)]; rewrite Hp in *.
  - apply chargingBranch_inv in H1 as (_ & Hb).
    destruct Hb as [([?|?] & _) | (_ & _ & [(? & _) | (_ & sc & Hsc & Hcells)])];
      [lia | lia | contradiction |].
    exists sc. destruct (findDonorReceiver_first _ _ _ _ Hsc). auto.
  - apply balancingBranch_inv in H1 as (_ & _ & _ & Hb).
    destruct Hb as [(? & _) | [(_ & sc & Hsc & Hcells) | (_ & ? & _)]];
      [lia | | contradiction].
    exists sc. destruct (findDonorReceiver_first _ _ _ _ Hsc). auto.
Qed.

Lemma tie_break_first_occurrence_witness :
  activeTransferStep tieState ∧ updateSimulation tieState = Normal tieStateNext ∧
  ∃ sc,
    findDonorReceiver (chargingActive tieState) (transferCurrent tieState)
      (transferPack tieState) = Normal sc ∧
    cells tieStateNext = transferCharge sc (transferPack tieState) ∧
    firstMaximum (fun c => getMeasuredVoltage (chargingActive tieState) c
                             (transferCurrent tieState))
                 (transferPack tieState) (maxIndex sc) ∧
    firstMinimum (fun c => getMeasuredVoltage (chargingActive tieState) c
                             (transferCurrent tieState))
                 (transferPack tieState) (minIndex sc).
Proof.
  assert (Hat : activeTransferStep tieState) by (right; split; reflexivity).
  assert (Hstep : updateSimulation tieState = Normal tieStateNext)
    by (vm_compute; reflexivity).
  exact (conj Hat (conj Hstep
           (tie_break_first_occurrence tieState tieStateNext Hat Hstep))).
Defined.

(** The tie-break scenario computed: cells 0 and 1 tie for the maximum, the
    donor is cell 0 and the receiver is cell 2. *)
Example tie_break_scenario :
  match findDonorReceiver false 0 (cells tieState) with
  | Normal sc => maxIndex sc = 0%nat ∧ minIndex sc = 2%nat
  | Throw _ => False
  end.
Proof. vm_compute. split; reflexivity. Qed.

(** ** Monotone charging *)

Lemma chargeCell_mono (I : Q) (c : Cell) :
  0 <= I -> okCell c -> SOC c <= SOC (chargeCell I c).
Proof.
  intros HI (Hcap & H0 & H1). unfold chargeCell. cbv zeta.
  pose proof (Qdiv_nonneg I (capacity c) HI Hcap) as Hq.
  cbn [SOC setSOC]. cmp_cases; cbn [SOC setSOC]; lra.
Qed.

Lemma chargedCells_mono (s : State) :
  Forall okCell (cells s) ->
  Forall2 (fun c c' => SOC c <= SOC c') (cells s) (chargedCells s).
Proof.
  unfold chargedCells. generalize (effectiveCurrent_pos s).
  generalize (effectiveCurrent s). intros I HI Hok.
  destruct (chargingActive s).
  - induction Hok as [|c cs Hc Hcs IH]; cbn; constructor; [|exact IH].
    apply chargeCell_mono; [lra | exact Hc].
  - induction Hok; constructor; [lra | assumption].
Qed.

Lemma transferCharge_none (sc : Scan) (cs : list Cell) :
  maxVoltage sc - minVoltage sc <= tolVoltage -> transferCharge sc cs = cs.
Proof.
  intros H. unfold transferCharge. apply Qgtb_le in H. now rewrite H.
Qed.

(** C8: a tick taken in phase charging with chargingActive = true, from a
    pack of well-formed cells (positive capacity, SOC in [0,1], as every
    pack of a run is), in which no balancing transfer occurs (the case is
    not 3, or it is 3 and the voltage spread does not exceed tolVoltage) and
    no overvoltage trip fires, leaves every cell with a SOC at least as
    large as before. *)
Theorem charging_soc_monotone (s s' : State) :
  Forall okCell (cells s) ->
  phase s = Charging -> chargingActive s = true ->
  updateSimulation s = Normal s' ->
  noTransfer s -> phase s' ≠ Balancing ->
  Forall2 (fun cell cell' => SOC cell <= SOC cell') (cells s) (cells s').
Proof.
  intros Hok Hp Ha Hstep Hnt _.
  apply updateSimulation_inv in Hstep as (s1 & -> & H1). rewrite Hp in H1.
  destruct (endCondition_inv s1) as (_ & _ & -> & _).
  apply chargingBranch_inv in H1 as (_ & Hb).
  pose proof (chargedCells_mono s Hok) as Hmono.
  destruct Hb as [(_ & _ & _ & _ & ->)
                 | (_ & _ & [(_ & -> & _) | (Hcase & sc & Hsc & ->)])];
    [assumption .. |].
  destruct Hnt as [Hnt | (sc0 & Hsc0 & Hspread)]; [contradiction|].
  rewrite Hsc in Hsc0. injection Hsc0 as <-.
  now rewrite transferCharge_none.
Qed.

Lemma charging_soc_monotone_witness :
  Forall okCell (cells levelState) ∧
  phase levelState = Charging ∧ chargingActive levelState = true ∧
  updateSimulation levelState = Normal levelStateNext ∧
  noTransfer levelState ∧ phase levelStateNext ≠ Balancing ∧
  Forall2 (fun cell cell' => SOC cell <= SOC cell') (cells levelState) (cells levelStateNext).
Proof.
  assert (Hok : Forall okCell (cells levelState)).
  { unfold levelState, okCell. cbn [cells].
    repeat (constructor; [cbn; repeat split; lra|]). constructor. }
  assert (Hstep : updateSimulation levelState = Normal levelStateNext)
    by (vm_compute; reflexivity).
  assert (Hnt : noTransfer levelState).
  { right. eexists. split; [reflexivity|]. vm_compute. discriminate. }
  assert (Hnb : phase levelStateNext ≠ Balancing) by discriminate.
  exact (conj Hok (conj eq_refl (conj eq_refl (conj Hstep (conj Hnt (conj Hnb
           (charging_soc_monotone levelState levelStateNext Hok eq_refl eq_refl Hstep Hnt Hnb))))))).
Defined.

(** ** The stand-alone pages *)

Lemma map_lookup {A B} (f : A -> B) (l : list A) (k : nat) :
  map f l !! k = f <$> l !! k.
Proof. exact (list_lookup_fmap f l k). Qed.

(** An indexed loop whose body rewrites the cell at its index. *)
Lemma forIndex_lookup {A} (body : nat -> list A -> list A) (h : nat -> A -> A)
    (n : nat) (l : list A) (k : nat) :
  (∀ i cs, body i cs = alter (h i) i cs) ->
  forIndex n body l !! k =
    if bool_decide (k < n)%nat then h k <$> l !! k else l !! k.
Proof.
  intros Hbody. unfold forIndex. induction n as [|n IH].
  - cbn. reflexivity.
  - rewrite seq_S, fold_left_app. cbn [fold_left plus].
    rewrite Hbody, lookup_alter_at, IH.
    repeat case_bool_decide; try lia; subst; try reflexivity.
    all: destruct (l !! k); reflexivity.
Qed.

Lemma forIndex_map {A} (body : nat -> list A -> list A) (f : A -> A) (l : list A) :
  (∀ i cs, body i cs = alter f i cs) ->
  forIndex (length l) body l = map f l.
Proof.
  intros Hbody. apply list_eq. intros k.
  rewrite (forIndex_lookup body (fun _ => f)) by assumption.
  rewrite map_lookup. case_bool_decide as Hk; [reflexivity|].
  rewrite lookup_ge_None_2 by lia. reflexivity.
Qed.

Lemma chargeAt_js (i : nat) (cs : list Cell) :
  PassiveJs.chargeAt i cs = alter (chargeCell I_BASE) i cs.
Proof.
  unfold PassiveJs.chargeAt. cbv zeta. rewrite list_alter_alter_eq.
  now apply list_alter_ext.
Qed.

Lemma chargeAt_html (i : nat) (cs : list Cell) :
  PassiveHtml.chargeAt i cs = alter (chargeCell I_BASE) i cs.
Proof.
  unfold PassiveHtml.chargeAt. cbv zeta. rewrite list_alter_alter_eq.
  now apply list_alter_ext.
Qed.

Lemma dischargeAt_js (mvs : list Q) (minV : option Q) (i : nat) (cs : list Cell) :
  PassiveJs.dischargeAt mvs minV i cs =
  alter (match mvs !! i, minV with
         | Some v, Some m => dischargeCell m v
         | _, _ => id
         end) i cs.
Proof.
  unfold PassiveJs.dischargeAt, dischargeCell.
  destruct (mvs !! i) as [v|], minV as [m|]; try (symmetry; apply list_alter_id; reflexivity).
  change PassiveJs.tolVoltage with tolVoltage.
  destruct (Qgtb v (m + tolVoltage)).
  - cbv zeta. rewrite list_alter_alter_eq. now apply list_alter_ext.
  - symmetry. now apply list_alter_id.
Qed.

Lemma dischargeAt_html (mvs : list Q) (minV : option Q) (i : nat) (cs : list Cell) :
  PassiveHtml.dischargeAt mvs minV i cs =
  alter (match mvs !! i, minV with
         | Some v, Some m => dischargeCell m v
         | _, _ => id
         end) i cs.
Proof.
  unfold PassiveHtml.dischargeAt, dischargeCell.
  destruct (mvs !! i) as [v|], minV as [m|]; try (symmetry; apply list_alter_id; reflexivity).
  change PassiveHtml.tolVoltage with tolVoltage.
  destruct (Qgtb v (m + tolVoltage)).
  - cbv zeta. rewrite list_alter_alter_eq. now apply list_alter_ext.
  - symmetry. now apply list_alter_id.
Qed.

Lemma discharge_loop (body : nat -> list Cell -> list Cell) (active : bool) (cs : list Cell) :
  (∀ i l, body i l =
          alter (match map (fun cell => getMeasuredVoltage active cell 0) cs !! i,
                       Math_min (map (fun cell => getMeasuredVoltage active cell 0) cs) with
                 | Some v, Some m => dischargeCell m v
                 | _, _ => id
                 end) i l) ->
  forIndex (length cs) body cs = passiveBalance active cs.
Proof.
  intros Hbody. apply list_eq. intros k.
  rewrite (forIndex_lookup body _ _ _ _ Hbody).
  unfold passiveBalance.
  rewrite map_lookup.
  destruct (Math_min _) as [m|].
  - rewrite map_lookup. case_bool_decide as Hk.
    + destruct (cs !! k); reflexivity.
    + rewrite lookup_ge_None_2 by lia. reflexivity.
  - case_bool_decide; destruct (cs !! k); reflexivity.
Qed.

Ltac step_eval :=
  cbv beta iota zeta delta
    [updateSimulation chargingBranch balancingBranch endCondition
     phase simulationCase chargingActive cells
     setCells setPhase setChargingActive mbind completion_bind
     Z.eqb Pos.eqb orb andb
     PassiveJs.updateSimulation PassiveJs.phase PassiveJs.chargingActive PassiveJs.cells
     PassiveHtml.updateSimulation PassiveHtml.phase PassiveHtml.chargingActive
     PassiveHtml.cells toPassiveJs toPassiveHtml jsToHtml].

Lemma pages_agree (p : PassiveJs.State) :
  PassiveHtml.updateSimulation (jsToHtml p) = jsToHtml (PassiveJs.updateSimulation p).
Proof.
  destruct p as [[| |] a cs]; step_eval.
  - rewrite (forIndex_map _ _ _ chargeAt_js), (forIndex_map _ _ _ chargeAt_html).
    change PassiveHtml.getMeasuredVoltage with PassiveJs.getMeasuredVoltage.
    change PassiveHtml.I_BASE with PassiveJs.I_BASE.
    change PassiveHtml.OVP with PassiveJs.OVP.
    destruct (existsb _ _); reflexivity.
  - change PassiveHtml.getMeasuredVoltage with getMeasuredVoltage.
    change PassiveJs.getMeasuredVoltage with getMeasuredVoltage.
    rewrite (discharge_loop _ a cs (dischargeAt_js _ _)).
    rewrite (discharge_loop _ a cs (dischargeAt_html _ _)).
    change PassiveHtml.spreadBelowTol with PassiveJs.spreadBelowTol.
    destruct (PassiveJs.spreadBelowTol _); reflexivity.
  - reflexivity.
Qed.

Lemma engine_case1_js (s : State) :
  simulationCase s = 1%Z ->
  (phase s = Charging -> chargingActive s = true) ->
  updateSimulation s = Normal (mkState 1 (PassiveJs.phase (PassiveJs.updateSimulation (toPassiveJs s)))
                                 (PassiveJs.chargingActive (PassiveJs.updateSimulation (toPassiveJs s)))
                                 (PassiveJs.cells (PassiveJs.updateSimulation (toPassiveJs s)))).
Proof.
  destruct s as [c p a cs]. cbn [simulationCase phase chargingActive].
  intros -> Ha. destruct p; step_eval.
  - rewrite (Ha eq_refl).
    rewrite (forIndex_map _ _ _ chargeAt_js).
    change PassiveJs.getMeasuredVoltage with getMeasuredVoltage.
    change PassiveJs.I_BASE with I_BASE. change PassiveJs.OVP with OVP.
    destruct (existsb _ _); reflexivity.
  - change PassiveJs.getMeasuredVoltage with getMeasuredVoltage.
    rewrite (discharge_loop _ a cs (dischargeAt_js _ _)).
    change PassiveJs.spreadBelowTol with spreadBelowTol.
    destruct (spreadBelowTol _); reflexivity.
  - reflexivity.
Qed.

(** One tick from a case-1 state that is not charging with the flag
    cleared: engine and pages agree. *)
Lemma case1_tick (s : State) :
  simulationCase s = 1%Z ->
  (phase s = Charging -> chargingActive s = true) ->
  ∃ s', updateSimulation s = Normal s' ∧
        simulationCase s' = 1%Z ∧
        PassiveJs.updateSimulation (toPassiveJs s) = toPassiveJs s' ∧
        PassiveHtml.updateSimulation (toPassiveHtml s) = toPassiveHtml s'.
Proof.
  intros Hc Ha.
  eexists. split; [apply (engine_case1_js s Hc Ha)|].
  split; [reflexivity|]. split.
  - now destruct (PassiveJs.updateSimulation (toPassiveJs s)).
  - change (toPassiveHtml s) with (jsToHtml (toPassiveJs s)).
    rewrite pages_agree.
    now destruct (PassiveJs.updateSimulation (toPassiveJs s)).
Qed.

(** C10: in every state of a case-1 run of the engine, one tick of the
    engine, one tick of the page of [src/passive.js] and one tick of the
    page of [src/unnamed/part_000], started from the same phase,
    chargingActive and cells, end in the same phase, chargingActive and
    cells; the engine's tick returns normally and keeps case 1.  (A run
    never is in charging with the flag cleared, so the engine's guard on
    the increment, which the pages do not have, makes no difference.) *)
Theorem passive_pages_equivalent (s : State) :
  reachable 1 s ->
  ∃ s', updateSimulation s = Normal s' ∧
        simulationCase s' = 1%Z ∧
        PassiveJs.updateSimulation (toPassiveJs s) = toPassiveJs s' ∧
        PassiveHtml.updateSimulation (toPassiveHtml s) = toPassiveHtml s' ∧
        PassiveHtml.updateSimulation (jsToHtml (toPassiveJs s)) =
          jsToHtml (PassiveJs.updateSimulation (toPassiveJs s)).
Proof.
  intros Hr.
  destruct (reachable_inv 1 s Hr) as (Hc & _ & _ & Ha & _).
  destruct (case1_tick s Hc Ha) as (s' & Hs' & Hc' & Hjs & Hhtml).
  exists s'. auto using pages_agree.
Qed.

Lemma passive_pages_equivalent_witness :
  reachable 1 (stateAfter 1 2) ∧
  ∃ s', updateSimulation (stateAfter 1 2) = Normal s' ∧
        simulationCase s' = 1%Z ∧
        PassiveJs.updateSimulation (toPassiveJs (stateAfter 1 2)) = toPassiveJs s' ∧
        PassiveHtml.updateSimulation (toPassiveHtml (stateAfter 1 2)) = toPassiveHtml s' ∧
        PassiveHtml.updateSimulation (jsToHtml (toPassiveJs (stateAfter 1 2))) =
          jsToHtml (PassiveJs.updateSimulation (toPassiveJs (stateAfter 1 2))).
Proof.
  assert (Hr : reachable 1 (stateAfter 1 2))
    by (apply (ticks_reachable 1 2); vm_compute; reflexivity).
  exact (conj Hr (passive_pages_equivalent (stateAfter 1 2) Hr)).
Defined.

(** The three resets agree, so the three runs agree tick by tick. *)
Lemma resets_agree :
  toPassiveJs (stateAfter 1 0) = PassiveJs.resetSimulation ∧
  toPassiveHtml (stateAfter 1 0) = PassiveHtml.resetSimulation.
Proof. split; reflexivity. Qed.

Lemma Nat_iter_shift {A} (f : A -> A) (n : nat) (x : A) :
  Nat.iter n f (f x) = f (Nat.iter n f x).
Proof.
  induction n as [|n IH]; [reflexivity|].
  change (f (Nat.iter n f (f x)) = f (f (Nat.iter n f x))). now rewrite IH.
Qed.

Lemma runs_agree_from (n : nat) (s : State) :
  reachable 1 s ->
  ∃ s', steps n s = Normal s' ∧
        toPassiveJs s' = Nat.iter n PassiveJs.updateSimulation (toPassiveJs s) ∧
        toPassiveHtml s' = Nat.iter n PassiveHtml.updateSimulation (toPassiveHtml s).
Proof.
  revert s. induction n as [|n IH]; intros s Hr.
  - exists s. cbn. auto.
  - destruct (reachable_inv 1 s Hr) as (Hc & _ & _ & Ha & _).
    destruct (case1_tick s Hc Ha) as (s1 & Hs1 & _ & Hjs & Hhtml).
    destruct (IH s1 (reach_step 1 s s1 Hr Hs1)) as (s' & Hs' & Hjs' & Hhtml').
    exists s'. cbn [steps]. rewrite Hs1. cbn [mbind completion_bind].
    split; [exact Hs'|].
    rewrite Hjs', Hhtml', <- Hjs, <- Hhtml.
    rewrite !Nat_iter_shift. split; reflexivity.
Qed.

(** After any number of ticks the case-1 engine and the two pages, each
    started by its own reset, are in the same phase, with the same flag and
    the same cells. *)
Lemma runs_agree (n : nat) :
  toPassiveJs (stateAfter 1 n) = Nat.iter n PassiveJs.updateSimulation PassiveJs.resetSimulation ∧
  toPassiveHtml (stateAfter 1 n) = Nat.iter n PassiveHtml.updateSimulation PassiveHtml.resetSimulation.
Proof.
  unfold stateAfter, ticks. cbn [resetSimulation mbind completion_bind].
  destruct (runs_agree_from n
              {| simulationCase := 1; phase := Charging;
                 chargingActive := true; cells := initCells |})
    as (s' & -> & Hjs & Hhtml).
  - now apply reach_reset.
  - auto.
Qed.

(** Outside the runs the guard does make a difference: from charging with
    the flag cleared the engine leaves the pack alone and the page charges
    it. *)
Example stalled_state_differs :
  updateSimulation stalledState = Normal stalledState ∧
  PassiveJs.updateSimulation (toPassiveJs stalledState) ≠ toPassiveJs stalledState.
Proof.
  split; [vm_compute; reflexivity|].
  intros H. apply (f_equal PassiveJs.cells) in H. vm_compute in H. discriminate H.
Qed.

(** * Further properties of the engine, the renderer and the page *)

Import Display Driver.

(** ** A tick keeps the constants of the pack *)

Lemma sameShape_refl (cs : list Cell) : Forall2 sameShape cs cs.
Proof. induction cs; constructor; [split; reflexivity | assumption]. Qed.

Lemma chargeCell_shape (I : Q) (c : Cell) : sameShape c (chargeCell I c).
Proof. unfold chargeCell. cbv zeta. cmp_cases; split; reflexivity. Qed.

Lemma map_shape (f : Cell -> Cell) (cs : list Cell) :
  (∀ c, sameShape c (f c)) -> Forall2 sameShape cs (map f cs).
Proof. intros Hf. induction cs; cbn; constructor; auto. Qed.

Lemma chargedCells_shape (s : State) : Forall2 sameShape (cells s) (chargedCells s).
Proof.
  unfold chargedCells. destruct (chargingActive s); [|apply sameShape_refl].
  apply map_shape, chargeCell_shape.
Qed.

Lemma passiveBalance_shape (active : bool) (cs : list Cell) :
  Forall2 sameShape cs (passiveBalance active cs).
Proof.
  unfold passiveBalance. destruct (Math_min _); [|apply sameShape_refl].
  apply map_shape. intros c. cbv zeta.
  repeat (cmp_cases; cbn [SOC setSOC]); split; reflexivity.
Qed.

Lemma transferCharge_shape (sc : Scan) (cs : list Cell) :
  Forall2 sameShape cs (transferCharge sc cs).
Proof.
  apply Forall2_same_length_lookup. split.
  - now rewrite transferCharge_length.
  - intros k c c' Hc Hc'.
    apply transferCharge_lookup in Hc' as (c0 & Hc0 & Hcap & HR & _).
    rewrite Hc in Hc0. injection Hc0 as <-. split; assumption.
Qed.

Lemma sameShape_trans (l1 l2 l3 : list Cell) :
  Forall2 sameShape l1 l2 -> Forall2 sameShape l2 l3 -> Forall2 sameShape l1 l3.
Proof.
  intros H12. revert l3. induction H12 as [|a b l1 l2 (Hc & Hr) _ IH]; intros l3 H23;
    inversion H23 as [|b' c l2' l3' (Hc' & Hr') H23']; subst; constructor; auto.
  split; congruence.
Qed.

Lemma tick_shape (s s' : State) :
  updateSimulation s = Normal s' -> Forall2 sameShape (cells s) (cells s').
Proof.
  intros H.
  apply updateSimulation_inv in H as (s1 & -> & H1).
  destruct (endCondition_inv s1) as (_ & _ & -> & _).
  destruct (phase s).
  - apply chargingBranch_inv in H1 as (_ & Hb).
    pose proof (chargedCells_shape s) as Hch.
    destruct Hb as [(_ & _ & _ & _ & ->)
                   | (_ & _ & [(_ & -> & _) | (_ & sc & _ & ->)])]; auto.
    eapply sameShape_trans; [exact Hch | apply transferCharge_shape].
  - apply balancingBranch_inv in H1 as (_ & _ & _ & Hb).
    destruct Hb as [(_ & ->) | [(_ & sc & _ & ->) | (_ & _ & ->)]];
      auto using passiveBalance_shape, transferCharge_shape, sameShape_refl.
  - subst s1. apply sameShape_refl.
Qed.

(** X1: a tick that returns changes neither the case, nor the number of
    cells, nor the capacity or the resistance of any cell. *)
Theorem tick_keeps_constants (s s' : State) :
  updateSimulation s = Normal s' ->
  simulationCase s' = simulationCase s ∧
  length (cells s') = length (cells s) ∧
  Forall2 (fun cell cell' => capacity cell' = capacity cell ∧ R cell' = R cell)
          (cells s) (cells s').
Proof.
  intros H. pose proof (tick_shape s s' H) as Hshape.
  destruct (step_phase s s' H) as (Hc & _).
  split; [exact Hc|]. split; [|exact Hshape].
  symmetry. eapply Forall2_length, Hshape.
Qed.

Lemma tick_keeps_constants_witness :
  updateSimulation tieState = Normal tieStateNext ∧
  simulationCase tieStateNext = simulationCase tieState ∧
  length (cells tieStateNext) = length (cells tieState) ∧
  Forall2 (fun cell cell' => capacity cell' = capacity cell ∧ R cell' = R cell)
          (cells tieState) (cells tieStateNext).
Proof.
  assert (Hstep : updateSimulation tieState = Normal tieStateNext)
    by (vm_compute; reflexivity).
  exact (conj Hstep (tick_keeps_constants tieState tieStateNext Hstep)).
Defined.

(** ** When a tick throws *)

Lemma chargingBranch_case (s : State) :
  chargingBranch s =
    if (simulationCase s =? 3)%Z
    then cs ← activeTransfer (chargingActive s) (effectiveCurrent s) (chargedCells s);
         Normal (setCells s cs)
    else Normal
           (if ((simulationCase s =? 1)%Z || (simulationCase s =? 2)%Z)%bool
            then if overvoltage s
                 then setPhase (setChargingActive (setCells s (chargedCells s)) false) Balancing
                 else setCells s (chargedCells s)
            else setCells s (chargedCells s)).
Proof.
  unfold chargingBranch. cbv zeta. fold (effectiveCurrent s).
  replace (if chargingActive s
           then setCells s (map (chargeCell (effectiveCurrent s)) (cells s))
           else s) with (setCells s (chargedCells s))
    by (unfold chargedCells; destruct s as [c p [] cs]; reflexivity).
  cbn [setCells simulationCase chargingActive cells phase].
  fold (overvoltage s).
  destruct (Z.eqb_spec (simulationCase s) 1) as [E1|N1];
    [|destruct (Z.eqb_spec (simulationCase s) 2) as [E2|N2]]; cbn [orb].
  1,2: destruct (overvoltage s);
       cbn [setPhase setChargingActive setCells simulationCase];
       (destruct (Z.eqb_spec (simulationCase s) 3); [lia|reflexivity]).
  cbn [setPhase setChargingActive setCells simulationCase chargingActive cells].
  destruct (Z.eqb_spec (simulationCase s) 3); reflexivity.
Qed.

(** X2: a tick throws (a [TypeError], on reading [cells[0].SOC]) exactly
    when the pack is empty and the tick runs the active-transfer block, that
    is in phase charging of case 3 and in phase balancing of case 2; every
    other tick returns. *)
Theorem tick_throws_iff (s : State) :
  updateSimulation s = Throw TypeError <-> cells s = [] ∧ activeTransferStep s.
Proof.
  unfold updateSimulation, activeTransferStep.
  destruct (phase s) eqn:Hp.
  - rewrite chargingBranch_case.
    destruct (Z.eqb_spec (simulationCase s) 3) as [E3|N3].
    + unfold activeTransfer, findDonorReceiver.
      assert (Hnil : chargedCells s = [] <-> cells s = []).
      { unfold chargedCells. destruct (chargingActive s); [|reflexivity].
        destruct (cells s); cbn; split; congruence. }
      destruct (chargedCells s) as [|c0 cs0] eqn:Hch; cbn.
      * split; [intros _|reflexivity]. split; [now apply Hnil | left; auto].
      * split; [discriminate|]. intros (Hnil' & _).
        apply Hnil in Hnil'. discriminate.
    + cbn. split; [discriminate|].
      intros (_ & [(_ & ?) | (? & _)]); [contradiction | discriminate].
  - unfold balancingBranch.
    destruct (Z.eqb_spec (simulationCase s) 1) as [E1|N1]; cbn.
    { split; [discriminate|]. intros (_ & [(? & _) | (_ & ?)]); [discriminate | lia]. }
    destruct (Z.eqb_spec (simulationCase s) 2) as [E2|N2]; cbn.
    2:{ split; [discriminate|]. intros (_ & [(? & _) | (_ & ?)]); [discriminate | lia]. }
    unfold activeTransfer, findDonorReceiver.
    destruct (cells s) as [|c0 cs0]; cbn.
    + split; [intros _|reflexivity]. split; [reflexivity | right; auto].
    + split; [discriminate|]. intros (? & _). discriminate.
  - cbn. split; [discriminate|].
    intros (_ & [(? & _) | (? & _)]); discriminate.
Qed.

(** ** More invariants of a run *)

Lemma reachable_shape (caseId : Z) (s : State) :
  reachable caseId s -> Forall2 sameShape initCells (cells s).
Proof.
  induction 1 as [s Hr | s s' Hs IH Hstep].
  - injection Hr as <-. apply sameShape_refl.
  - eapply sameShape_trans; [exact IH | exact (tick_shape s s' Hstep)].
Qed.

Lemma reachable_flag (caseId : Z) (s : State) :
  reachable caseId s ->
  (chargingActive s = false <->
   phase s ≠ Charging ∧ (caseId = 1 ∨ caseId = 2)%Z).
Proof.
  induction 1 as [s Hr | s s' Hs IH Hstep].
  - injection Hr as <-. cbn. split; [discriminate | intros (? & _); congruence].
  - destruct (reachable_inv caseId s Hs) as (Hc & _).
    destruct (step_phase s s' Hstep) as (_ & Hp). rewrite Hc in Hp.
    destruct (phase s) eqn:E.
    + destruct Hp as [(-> & ->) | [(-> & -> & Hcase) | (-> & -> & Hcase)]].
      * rewrite IH. split; intros (? & ?); congruence.
      * split; [intros _; split; [discriminate | exact Hcase] | reflexivity].
      * rewrite IH. split; [intros (? & _); congruence|].
        intros (_ & ?). lia.
    + destruct Hp as ([-> | ->] & ->); rewrite IH;
        split; intros (_ & ?); (split; [discriminate | assumption]).
    + subst s'. rewrite E. exact IH.
Qed.

Lemma reachable_coherent (caseId : Z) (s : State) :
  reachable caseId s -> coherent s.
Proof.
  intros Hr. destruct (reachable_inv caseId s Hr) as (Hc & _ & _ & Hact & Hbal).
  split; [exact Hact|]. intros Hp. rewrite Hc. split; [|auto].
  apply (reachable_flag caseId s Hr). split; [congruence | auto].
Qed.

(** X3: in a run, chargingActive is false exactly in the phases balancing
    and done of cases 1 and 2; in every other case (3 and 4 among them) it
    stays true to the end. *)
Theorem flag_follows_phase (caseId : Z) (s : State) :
  reachable caseId s ->
  (chargingActive s = false <->
   phase s ≠ Charging ∧ (caseId = 1 ∨ caseId = 2)%Z).
Proof. exact (reachable_flag caseId s). Qed.

Lemma flag_follows_phase_witness :
  reachable 4 (stateAfter 4 2) ∧
  (chargingActive (stateAfter 4 2) = false <->
   phase (stateAfter 4 2) ≠ Charging ∧ (4 = 1 ∨ 4 = 2)%Z).
Proof.
  assert (Hr : reachable 4 (stateAfter 4 2))
    by (apply (ticks_reachable 4 2); vm_compute; reflexivity).
  exact (conj Hr (flag_follows_phase 4 (stateAfter 4 2) Hr)).
Defined.

(** ** [Math.min] and [Math.max] *)

Lemma Math_min_spec (vs : list Q) (m : Q) :
  Math_min vs = Some m ->
  (∀ v, In v vs -> m <= v) ∧ (∃ v, In v vs ∧ v == m).
Proof.
  revert m. induction vs as [|v vs IH]; intros m; [discriminate|].
  cbn [Math_min]. destruct (Math_min vs) as [m'|] eqn:E.
  - intros [= <-]. destruct (IH m' eq_refl) as (Hle & v0 & Hin & Heq).
    split.
    + intros x [<- | Hx]; [apply Q.le_min_l|].
      eapply Qle_trans; [apply Q.le_min_r | auto].
    + destruct (Q.min_spec v m') as [(_ & Hm) | (_ & Hm)].
      * exists v. split; [now left | now symmetry].
      * exists v0. split; [now right | now rewrite Hm].
  - intros [= <-]. destruct vs; [|cbn in E; destruct (Math_min vs); discriminate].
    split; [intros x [<- | []]; apply Qle_refl | exists v; split; [now left | reflexivity]].
Qed.

Lemma Math_max_spec (vs : list Q) (m : Q) :
  Math_max vs = Some m ->
  (∀ v, In v vs -> v <= m) ∧ (∃ v, In v vs ∧ v == m).
Proof.
  revert m. induction vs as [|v vs IH]; intros m; [discriminate|].
  cbn [Math_max]. destruct (Math_max vs) as [m'|] eqn:E.
  - intros [= <-]. destruct (IH m' eq_refl) as (Hle & v0 & Hin & Heq).
    split.
    + intros x [<- | Hx]; [apply Q.le_max_l|].
      eapply Qle_trans; [auto | apply Q.le_max_r].
    + destruct (Q.max_spec v m') as [(_ & Hm) | (_ & Hm)].
      * exists v0. split; [now right | now rewrite Hm].
      * exists v. split; [now left | now symmetry].
  - intros [= <-]. destruct vs; [|cbn in E; destruct (Math_max vs); discriminate].
    split; [intros x [<- | []]; apply Qle_refl | exists v; split; [now left | reflexivity]].
Qed.

Lemma Math_max_min_some (vs : list Q) :
  vs ≠ [] -> ∃ hi lo, Math_max vs = Some hi ∧ Math_min vs = Some lo.
Proof.
  destruct vs as [|v vs]; [congruence|]. intros _. cbn.
  destruct (Math_max vs), (Math_min vs); eauto.
Qed.

(** ** Passive balancing *)

(** X4: a balancing tick of case 1 on a pack of well-formed cells only
    discharges: no SOC rises, no SOC falls by more than dPassive, and a cell
    whose measured voltage is within tolVoltage of every cell's (the lowest
    cell among them) is left as it is. *)
Theorem passive_balancing_only_discharges (s s' : State) :
  phase s = Balancing -> simulationCase s = 1%Z ->
  Forall okCell (cells s) ->
  updateSimulation s = Normal s' ->
  Forall2 (fun cell cell' => SOC cell - dPassive <= SOC cell' ∧ SOC cell' <= SOC cell)
          (cells s) (cells s')
  ∧ (∀ k cell,
       cells s !! k = Some cell ->
       (∀ other, In other (cells s) ->
          getMeasuredVoltage (chargingActive s) cell 0
          <= getMeasuredVoltage (chargingActive s) other 0 + tolVoltage) ->
       cells s' !! k = Some cell).
Proof.
  intros Hp Hc Hok Hstep.
  apply updateSimulation_inv in Hstep as (s1 & -> & H1). rewrite Hp in H1.
  destruct (endCondition_inv s1) as (_ & _ & -> & _).
  apply balancingBranch_inv in H1 as (_ & _ & _ & Hb).
  destruct Hb as [(_ & ->) | [(? & _) | (? & _)]]; [|lia|contradiction].
  unfold passiveBalance.
  destruct (Math_min _) as [m|] eqn:Emin.
  2:{ split; [|auto]. clear -Hok. induction Hok as [|c cs (_ & H0 & H1) _ IH];
        constructor; [unfold dPassive; split; lra | exact IH]. }
  apply Math_min_spec in Emin as (Hle & v0 & Hin0 & Heq0).
  split.
  - clear -Hok. induction Hok as [|c cs (_ & H0 & H1) _ IH]; cbn [map];
      constructor; [|exact IH].
    cbv zeta. unfold dPassive.
    repeat (cmp_cases; cbn [SOC setSOC] in * ); split; lra.
  - intros k c Hk Hnear.
    rewrite map_lookup, Hk. cbn [fmap option_fmap option_map]. cbv zeta.
    apply in_map_iff in Hin0 as (c0 & Hv0 & Hc0).
    specialize (Hnear c0 Hc0). rewrite Hv0 in Hnear.
    assert (E : Qgtb (getMeasuredVoltage (chargingActive s) c 0) (m + tolVoltage) = false)
      by (apply Qgtb_le; lra).
    now rewrite E.
Qed.

Lemma passiveState_ok : Forall okCell (cells passiveState).
Proof.
  unfold passiveState, okCell. cbn [cells].
  repeat (constructor; [cbn; repeat split; lra|]). constructor.
Qed.

Lemma passive_balancing_only_discharges_witness :
  phase passiveState = Balancing ∧ simulationCase passiveState = 1%Z ∧
  Forall okCell (cells passiveState) ∧
  updateSimulation passiveState = Normal passiveStateNext ∧
  Forall2 (fun cell cell' => SOC cell - dPassive <= SOC cell' ∧ SOC cell' <= SOC cell)
          (cells passiveState) (cells passiveStateNext).
Proof.
  assert (Hstep : updateSimulation passiveState = Normal passiveStateNext)
    by (vm_compute; reflexivity).
  exact (conj eq_refl (conj eq_refl (conj passiveState_ok (conj Hstep
           (proj1 (passive_balancing_only_discharges passiveState passiveStateNext
                     eq_refl eq_refl passiveState_ok Hstep)))))).
Defined.

(** ** Active transfer conserves charge *)

Lemma findDonorReceiver_voltages (active : bool) (current : Q) (cs : list Cell) (sc : Scan) :
  findDonorReceiver active current cs = Normal sc ->
  ∃ donor receiver,
    cs !! maxIndex sc = Some donor ∧
    getMeasuredVoltage active donor current = maxVoltage sc ∧
    cs !! minIndex sc = Some receiver ∧
    getMeasuredVoltage active receiver current = minVoltage sc.
Proof.
  unfold findDonorReceiver. destruct cs as [|cell0 cs']; [discriminate|].
  set (cs := cell0 :: cs').
  set (v := fun c => getMeasuredVoltage active c current).
  intros Hsc.
  assert (Hinv : scanInv v cs (0 + length cs) sc).
  { injection Hsc as <-.
    change (scanInv v cs (0 + length cs)
              (forEachFrom (scanCell active current) 0 cs
                 {| maxIndex := 0; minIndex := 0;
                    maxVoltage := v cell0; minVoltage := v cell0 |})).
    apply forEachFrom_scan_inv; [auto|].
    unfold scanInv. cbn [maxIndex minIndex maxVoltage minVoltage].
    repeat split; try (exists cell0; split; reflexivity); intros; lia. }
  destruct Hinv as ((cmax & Hcmax & Hvmax) & _ & _ & (cmin & Hcmin & Hvmin) & _).
  exists cmax, cmin. auto.
Qed.

Lemma sumSOC_alter (f : Cell -> Cell) (i : nat) (cs : list Cell) (c : Cell) :
  cs !! i = Some c ->
  sumSOC (alter f i cs) == sumSOC cs + (SOC (f c) - SOC c).
Proof.
  revert i. induction cs as [|x cs IH]; intros [|i] H; try discriminate.
  - injection H as ->. cbn. lra.
  - cbn in H. cbn [alter list_alter sumSOC fold_right].
    change (SOC x + sumSOC (alter f i cs) == SOC x + sumSOC cs + (SOC (f c) - SOC c)).
    rewrite (IH i H). lra.
Qed.

Lemma alter_fixed {A} (f : A -> A) (i : nat) (l : list A) (x : A) :
  l !! i = Some x -> f x = x -> alter f i l = l.
Proof.
  intros Hx Hf. apply list_eq. intros k.
  rewrite lookup_alter_at. case_bool_decide as E; [subst k|now destruct (l !! k)].
  rewrite Hx. cbn. now rewrite Hf.
Qed.

(** Under the guard of the transfer no clamp fires: the pack after the
    transfer is the pack with [dActive] moved from the donor to the
    receiver. *)
Lemma transferCharge_exact (active : bool) (current : Q) (cs : list Cell) (sc : Scan) :
  Forall okCell cs -> smallIRSpread active current cs ->
  findDonorReceiver active current cs = Normal sc ->
  transferCharge sc cs =
    (if Qgtb (maxVoltage sc - minVoltage sc) tolVoltage
     then alter (fun c => setSOC c (SOC c + dActive)) (minIndex sc)
            (alter (fun c => setSOC c (SOC c - dActive)) (maxIndex sc) cs)
     else cs)
  ∧ sumSOC (transferCharge sc cs) == sumSOC cs.
Proof.
  intros Hok Hir Hsc.
  apply findDonorReceiver_voltages in Hsc as (cd & cr & Hd & Hvd & Hr & Hvr).
  unfold transferCharge.
  destruct (Qgtb _ _) eqn:Eg; [|split; reflexivity].
  apply Qgtb_gt in Eg. rewrite <- Hvd, <- Hvr in Eg. cbv zeta.
  assert (Hind : In cd cs) by (apply list_elem_of_In, list_elem_of_lookup; eauto).
  assert (Hinr : In cr cs) by (apply list_elem_of_In, list_elem_of_lookup; eauto).
  pose proof (Hir cd cr Hind Hinr) as Hspread.
  destruct (Forall_lookup_1 _ _ _ _ Hok Hd) as (_ & Hd0 & Hd1).
  destruct (Forall_lookup_1 _ _ _ _ Hok Hr) as (_ & Hr0 & Hr1).
  unfold getMeasuredVoltage, getOCV, V_MIN, V_MAX, tolVoltage in Eg.
  fold (irDrop active current cd) in Eg. fold (irDrop active current cr) in Eg.
  assert (Hgap : SOC cr + dActive < SOC cd) by (unfold dActive; lra).
  assert (Hne : maxIndex sc ≠ minIndex sc).
  { intros E. rewrite E, Hr in Hd. injection Hd as ->. unfold dActive in Hgap. lra. }
  set (f1 := fun c => setSOC c (SOC c - dActive)).
  set (f2 := fun c => setSOC c (SOC c + dActive)).
  set (l1 := alter f1 (maxIndex sc) cs).
  set (l2 := alter f2 (minIndex sc) l1).
  assert (Hl1d : l1 !! maxIndex sc = Some (f1 cd))
    by (unfold l1; rewrite list_lookup_alter_eq, Hd; reflexivity).
  assert (Hl1r : l1 !! minIndex sc = Some cr)
    by (unfold l1; rewrite list_lookup_alter_ne, Hr; auto).
  assert (Hl2d : l2 !! maxIndex sc = Some (f1 cd))
    by (unfold l2; rewrite list_lookup_alter_ne, Hl1d; auto).
  assert (Hl2r : l2 !! minIndex sc = Some (f2 cr))
    by (unfold l2; rewrite list_lookup_alter_eq, Hl1r; reflexivity).
  assert (E3 : alter (fun c => if Qltb (SOC c) 0 then setSOC c 0 else c) (maxIndex sc) l2 = l2).
  { apply (alter_fixed _ _ _ _ Hl2d). unfold f1. cbn [SOC setSOC].
    assert (E : Qltb (SOC cd - dActive) 0 = false)
      by (apply Qltb_ge; unfold dActive in *; lra).
    now rewrite E. }
  rewrite E3.
  assert (E4 : alter (fun c => if Qgtb (SOC c) 1 then setSOC c 1 else c) (minIndex sc) l2 = l2).
  { apply (alter_fixed _ _ _ _ Hl2r). unfold f2. cbn [SOC setSOC].
    assert (E : Qgtb (SOC cr + dActive) 1 = false)
      by (apply Qgtb_le; unfold dActive in *; lra).
    now rewrite E. }
  rewrite E4. split; [reflexivity|].
  unfold l2. rewrite (sumSOC_alter f2 _ _ _ Hl1r).
  unfold l1. rewrite (sumSOC_alter f1 _ _ _ Hd).
  unfold f1, f2. cbn [SOC setSOC]. lra.
Qed.

Lemma run_pack_resistances (caseId : Z) (s : State) :
  reachable caseId s -> Forall (fun c => 0 <= R c ∧ R c <= 0.08) (chargedCells s).
Proof.
  intros Hr. pose proof (reachable_shape caseId s Hr) as Hsh.
  pose proof (sameShape_trans _ _ _ Hsh (chargedCells_shape s)) as H.
  unfold initCells in H. generalize dependent (chargedCells s). intros cs H.
  repeat match goal with
         | H : Forall2 _ (_ :: _) _ |- _ =>
             let HR := fresh "HR" in
             inversion H as [|? ? ? ? (_ & HR)]; clear H; subst; cbn in HR
         | H : Forall2 _ [] _ |- _ => inversion H; clear H; subst
         end.
  repeat constructor; cbn; rewrite ?HR, ?HR0, ?HR1; lra.
Qed.

(** X5: in a run, a tick of the active-transfer block (charging in case 3,
    balancing in case 2) never reaches a clamp: the pack it leaves is the
    pack it worked on with exactly dActive moved from the donor to the
    receiver when the spread exceeds tolVoltage, and unchanged otherwise; so
    the transfer conserves the sum of the SOCs. *)
Theorem active_transfer_conserves_soc (caseId : Z) (s s' : State) :
  reachable caseId s -> activeTransferStep s ->
  updateSimulation s = Normal s' ->
  ∃ sc,
    findDonorReceiver (chargingActive s) (transferCurrent s) (transferPack s)
      = Normal sc ∧
    cells s' =
      (if Qgtb (maxVoltage sc - minVoltage sc) tolVoltage
       then alter (fun c => setSOC c (SOC c + dActive)) (minIndex sc)
              (alter (fun c => setSOC c (SOC c - dActive)) (maxIndex sc)
                 (transferPack s))
       else transferPack s) ∧
    sumSOC (cells s') == sumSOC (transferPack s).
Proof.
  intros Hr Hat Hstep.
  destruct (reachable_inv caseId s Hr) as (Hc & Hok & _ & Hact & _).
  assert (Hir : smallIRSpread (chargingActive s) (transferCurrent s) (transferPack s)).
  { unfold smallIRSpread, irDrop, transferCurrent, transferPack.
    destruct Hat as [(Hp & Hcase) | (Hp & Hcase)]; rewrite Hp.
    - rewrite (Hact Hp). unfold effectiveCurrent. rewrite Hcase.
      change (3 =? 4)%Z with false. cbv iota. unfold I_BASE.
      pose proof (run_pack_resistances caseId s Hr) as HR.
      rewrite Forall_forall in HR.
      intros c c' Hin Hin'. apply list_elem_of_In in Hin, Hin'.
      destruct (HR c Hin), (HR c' Hin'). lra.
    - assert (Hf : chargingActive s = false).
      { apply (reachable_flag caseId s Hr). split; [congruence | lia]. }
      rewrite Hf. intros. lra. }
  assert (Hok' : Forall okCell (transferPack s)).
  { unfold transferPack. destruct (phase s); auto using chargedCells_ok. }
  assert (Hsc : ∃ sc, findDonorReceiver (chargingActive s) (transferCurrent s) (transferPack s)
                        = Normal sc ∧ cells s' = transferCharge sc (transferPack s)).
  { unfold transferCurrent, transferPack.
    apply updateSimulation_inv in Hstep as (s1 & -> & H1).
    destruct (endCondition_inv s1) as (_ & _ & -> & _).
    destruct Hat as [(Hp & Hcase) | (Hp & Hcase)]; rewrite Hp in *.
    - apply chargingBranch_inv in H1 as (_ & Hb).
      destruct Hb as [([?|?] & _) | (_ & _ & [(? & _) | (_ & sc & Hsc & Hcells)])];
        [lia | lia | contradiction | eauto].
    - apply balancingBranch_inv in H1 as (_ & _ & _ & Hb).
      destruct Hb as [(? & _) | [(_ & sc & Hsc & Hcells) | (_ & ? & _)]];
        [lia | eauto | contradiction]. }
  destruct Hsc as (sc & Hsc & ->).
  destruct (transferCharge_exact _ _ _ _ Hok' Hir Hsc) as (Hexact & Hsum).
  exists sc. auto.
Qed.

Lemma active_transfer_conserves_soc_witness :
  reachable 3 (stateAfter 3 1) ∧ activeTransferStep (stateAfter 3 1) ∧
  updateSimulation (stateAfter 3 1) = Normal (stateAfter 3 2) ∧
  ∃ sc,
    findDonorReceiver (chargingActive (stateAfter 3 1)) (transferCurrent (stateAfter 3 1))
      (transferPack (stateAfter 3 1)) = Normal sc ∧
    cells (stateAfter 3 2) =
      (if Qgtb (maxVoltage sc - minVoltage sc) tolVoltage
       then alter (fun c => setSOC c (SOC c + dActive)) (minIndex sc)
              (alter (fun c => setSOC c (SOC c - dActive)) (maxIndex sc)
                 (transferPack (stateAfter 3 1)))
       else transferPack (stateAfter 3 1)) ∧
    sumSOC (cells (stateAfter 3 2)) == sumSOC (transferPack (stateAfter 3 1)).
Proof.
  assert (Hr : reachable 3 (stateAfter 3 1))
    by (apply (ticks_reachable 3 1); vm_compute; reflexivity).
  assert (Hat : activeTransferStep (stateAfter 3 1))
    by (left; split; vm_compute; reflexivity).
  assert (Hstep : updateSimulation (stateAfter 3 1) = Normal (stateAfter 3 2))
    by (vm_compute; reflexivity).
  exact (conj Hr (conj Hat (conj Hstep
           (active_transfer_conserves_soc 3 (stateAfter 3 1) (stateAfter 3 2) Hr Hat Hstep)))).
Defined.


(** ** Progress of passive balancing *)

Lemma sumSOC_map_le (f : Cell -> Cell) (cs : list Cell) :
  (∀ c, In c cs -> SOC (f c) <= SOC c) -> sumSOC (map f cs) <= sumSOC cs.
Proof.
  induction cs as [|c cs IH]; intros H; cbn [map sumSOC fold_right]; [lra|].
  fold (sumSOC (map f cs)). fold (sumSOC cs).
  pose proof (H c (or_introl eq_refl)).
  assert (sumSOC (map f cs) <= sumSOC cs) by (apply IH; intros; apply H; now right).
  lra.
Qed.

Lemma sumSOC_map_lt (f : Cell -> Cell) (cs : list Cell) (c0 : Cell) :
  (∀ c, In c cs -> SOC (f c) <= SOC c) ->
  In c0 cs -> SOC (f c0) < SOC c0 ->
  sumSOC (map f cs) < sumSOC cs.
Proof.
  induction cs as [|c cs IH]; intros H Hin Hd; [destruct Hin|].
  cbn [map sumSOC fold_right]. fold (sumSOC (map f cs)). fold (sumSOC cs).
  destruct Hin as [-> | Hin].
  - assert (sumSOC (map f cs) <= sumSOC cs)
      by (apply sumSOC_map_le; intros; apply H; now right).
    lra.
  - pose proof (H c (or_introl eq_refl)).
    assert (sumSOC (map f cs) < sumSOC cs)
      by (apply IH; auto; intros; apply H; now right).
    lra.
Qed.

(** X7: a balancing tick of case 1 on well-formed cells makes progress
    whenever it has something to do: every cell that passes the test
    [v > minVoltage + tolVoltage] ends the tick with a strictly lower SOC,
    every other cell is left as it is, and so the sum of the SOCs falls
    exactly when some cell passes the test. *)
Theorem passive_balancing_progress (s s' : State) :
  phase s = Balancing -> simulationCase s = 1%Z ->
  Forall okCell (cells s) ->
  updateSimulation s = Normal s' ->
  (∀ k cell,
      cells s !! k = Some cell ->
      if dischargeTest (chargingActive s) (cells s) cell
      then ∃ cell', cells s' !! k = Some cell' ∧ SOC cell' < SOC cell
      else cells s' !! k = Some cell)
  ∧ (sumSOC (cells s') < sumSOC (cells s) <->
     ∃ cell, In cell (cells s) ∧
             dischargeTest (chargingActive s) (cells s) cell = true).
Proof.
  intros Hp Hc Hok Hstep.
  apply updateSimulation_inv in Hstep as (s1 & -> & H1). rewrite Hp in H1.
  destruct (endCondition_inv s1) as (_ & _ & -> & _).
  apply balancingBranch_inv in H1 as (_ & _ & _ & Hb).
  destruct Hb as [(_ & ->) | [(? & _) | (? & _)]]; [|lia|contradiction].
  unfold passiveBalance, dischargeTest.
  set (a := chargingActive s).
  assert (Hv : ∀ c, getMeasuredVoltage a c 0 == 3 + (12 # 10) * SOC c).
  { intros c. unfold getMeasuredVoltage, getOCV, V_MIN, V_MAX. destruct a; lra. }
  rewrite Forall_forall in Hok.
  destruct (Math_min (map (fun cell => getMeasuredVoltage a cell 0) (cells s)))
    as [lo|] eqn:Elo.
  2:{ split.
      - intros k cell Hk. exact Hk.
      - split; [lra | intros (c & _ & Hf); discriminate Hf]. }
  destruct (Math_min_spec _ _ Elo) as (Hlo & vlo & Hvlo & Evlo).
  apply in_map_iff in Hvlo as (clo & <- & Hclo).
  set (f := fun cell : Cell =>
              let v := getMeasuredVoltage a cell 0 in
              if Qgtb v (lo + tolVoltage)
              then let cell0 := setSOC cell (SOC cell - dPassive) in
                   if Qltb (SOC cell0) 0 then setSOC cell0 0 else cell0
              else cell).
  assert (Hle : ∀ c, In c (cells s) -> SOC (f c) <= SOC c).
  { intros c Hin. apply list_elem_of_In in Hin.
    destruct (Hok c Hin) as (_ & H0 & _).
    unfold f. cbv zeta. unfold dPassive.
    repeat (cmp_cases; cbn [SOC setSOC] in * ); lra. }
  assert (Hdrop : ∀ c, Qgtb (getMeasuredVoltage a c 0) (lo + tolVoltage) = true ->
                       SOC (f c) < SOC c).
  { intros c E.
    destruct (Hok clo (proj2 (list_elem_of_In _ _) Hclo)) as (_ & Hlo0 & _).
    rewrite (Hv clo) in Evlo.
    unfold f. cbv zeta. rewrite E. apply Qgtb_gt in E. rewrite (Hv c) in E.
    unfold tolVoltage, dPassive in *.
    cmp_cases; cbn [SOC setSOC] in *; lra. }
  assert (Hkeep : ∀ c, Qgtb (getMeasuredVoltage a c 0) (lo + tolVoltage) = false -> f c = c).
  { intros c E. unfold f. cbv zeta. now rewrite E. }
  split.
  - intros k cell Hk.
    destruct (Qgtb (getMeasuredVoltage a cell 0) (lo + tolVoltage)) eqn:E.
    + exists (f cell). split; [|exact (Hdrop cell E)].
      rewrite map_lookup, Hk. reflexivity.
    + rewrite map_lookup, Hk. cbn [fmap option_fmap option_map].
      fold f. now rewrite (Hkeep cell E).
  - split.
    + intros Hlt.
      destruct (existsb (fun c => Qgtb (getMeasuredVoltage a c 0) (lo + tolVoltage)) (cells s))
        eqn:Eex.
      * apply existsb_exists in Eex as (c0 & Hin0 & Hgt). eauto.
      * exfalso.
        assert (Hsame : map f (cells s) = cells s).
        { rewrite (map_ext_in f (fun c => c)); [apply map_id|].
          intros c Hin. apply Hkeep.
          destruct (Qgtb (getMeasuredVoltage a c 0) (lo + tolVoltage)) eqn:E; [|reflexivity].
          assert (existsb (fun c => Qgtb (getMeasuredVoltage a c 0) (lo + tolVoltage)) (cells s)
                  = true) by (apply existsb_exists; eauto).
          congruence. }
        fold f in Hlt. rewrite Hsame in Hlt. lra.
    + intros (c & Hin & Hgt).
      apply (sumSOC_map_lt f _ c Hle Hin), Hdrop, Hgt.
Qed.

Lemma passive_balancing_progress_witness :
  phase passiveState = Balancing ∧ simulationCase passiveState = 1%Z ∧
  Forall okCell (cells passiveState) ∧
  updateSimulation passiveState = Normal passiveStateNext ∧
  (sumSOC (cells passiveStateNext) < sumSOC (cells passiveState) <->
   ∃ cell, In cell (cells passiveState) ∧
           dischargeTest (chargingActive passiveState) (cells passiveState) cell = true).
Proof.
  assert (Hstep : updateSimulation passiveState = Normal passiveStateNext)
    by (vm_compute; reflexivity).
  exact (conj eq_refl (conj eq_refl (conj passiveState_ok (conj Hstep
           (proj2 (passive_balancing_progress passiveState passiveStateNext
                     eq_refl eq_refl passiveState_ok Hstep)))))).
Defined.

(** ** What the phase done means *)

Lemma spreadBelowTol_pairwise (vs : list Q) :
  spreadBelowTol vs = true -> ∀ a b, In a vs -> In b vs -> a - b < tolVoltage.
Proof.
  intros H a b Ha Hb. unfold spreadBelowTol in H.
  destruct (Math_max_min_some vs) as (hi & lo & Hhi & Hlo).
  { intros ->. destruct Ha. }
  rewrite Hhi, Hlo in H. apply Qltb_lt in H.
  destruct (Math_max_spec _ _ Hhi) as (Hmax & _).
  destruct (Math_min_spec _ _ Hlo) as (Hmin & _).
  specialize (Hmax a Ha). specialize (Hmin b Hb). lra.
Qed.

Lemma endCondition_done (s : State) :
  phase s = Charging -> phase (endCondition s) = Done ->
  (simulationCase s = 3 ∨ simulationCase s = 4)%Z ∧
  forallb (fun cell => Qgeb (SOC cell) 0.99) (cells s) = true ∧
  spreadBelowTol
    (map (fun cell =>
            getMeasuredVoltage (chargingActive s) cell
              (if ((simulationCase s =? 4)%Z && chargingActive s)%bool
               then getChargingCurrentCase4 (chargingActive s) (cells s)
               else I_BASE)) (cells s)) = true.
Proof.
  intros Hp. unfold endCondition. cbv zeta.
  destruct (_ && match phase s with Charging => true | _ => false end)%bool eqn:Eg.
  2:{ rewrite Hp. discriminate. }
  apply andb_true_iff in Eg as (Ecase & _).
  destruct (forallb _ _) eqn:Efull; cbn [andb].
  2:{ rewrite Hp. discriminate. }
  destruct (spreadBelowTol _) eqn:Espread.
  2:{ rewrite Hp. discriminate. }
  intros _. apply orb_true_iff in Ecase. split; [lia | auto].
Qed.

Lemma balancingBranch_done (s s1 : State) :
  phase s = Balancing -> balancingBranch s = Normal s1 -> phase s1 = Done ->
  spreadBelowTol (map (fun cell => getMeasuredVoltage (chargingActive s1) cell 0) (cells s1))
  = true.
Proof.
  intros Hp H Hd. unfold balancingBranch in H.
  apply bind_Normal in H as (s2 & Hs2 & H).
  assert (Hp2 : phase s2 = Balancing).
  { destruct (_ =? 1)%Z; [injection Hs2 as <-; exact Hp|].
    destruct (_ =? 2)%Z; [|injection Hs2 as <-; exact Hp].
    apply bind_Normal in Hs2 as (cs & _ & [= <-]). exact Hp. }
  destruct (spreadBelowTol _) eqn:E; injection H as <-.
  - exact E.
  - congruence.
Qed.

Lemma toFixed_bounds (x : Q) (f : nat) :
  x * inject_Z (10 ^ Z.of_nat f) - (1 # 2) <= inject_Z (toFixed x f)
  ∧ inject_Z (toFixed x f) <= x * inject_Z (10 ^ Z.of_nat f) + (1 # 2).
Proof.
  unfold toFixed. cbv zeta. set (k := inject_Z (10 ^ Z.of_nat f)).
  destruct (Qltb x 0).
  - pose proof (Qfloor_le (- x * k + (1 # 2))) as Hlo.
    pose proof (Qlt_floor (- x * k + (1 # 2))) as Hhi.
    rewrite inject_Z_plus in Hhi. rewrite inject_Z_opp.
    change (inject_Z 1) with 1 in Hhi. split; lra.
  - pose proof (Qfloor_le (x * k + (1 # 2))) as Hlo.
    pose proof (Qlt_floor (x * k + (1 # 2))) as Hhi.
    rewrite inject_Z_plus in Hhi.
    change (inject_Z 1) with 1 in Hhi. split; lra.
Qed.

(** Two numbers less than the tolerance apart are shown, with two digits,
    at most one hundredth apart. *)
Lemma toFixed_close (x y : Q) :
  x - y < tolVoltage -> (toFixed x 2 - toFixed y 2 <= 1)%Z.
Proof.
  intros H. unfold tolVoltage in H.
  destruct (toFixed_bounds x 2) as (_ & Hx). destruct (toFixed_bounds y 2) as (Hy & _).
  change (inject_Z (10 ^ Z.of_nat 2)) with 100 in Hx, Hy.
  assert (Hq : inject_Z (toFixed x 2 - toFixed y 2) < inject_Z 2).
  { unfold Z.sub. rewrite inject_Z_plus, inject_Z_opp. change (inject_Z 2) with 2. lra. }
  rewrite <- Zlt_Qlt in Hq. lia.
Qed.

Lemma toFixed_percent (soc : Q) :
  0.99 <= soc -> (990 <= toFixed (soc * 100) 1)%Z.
Proof.
  intros H. destruct (toFixed_bounds (soc * 100) 1) as (Hlo & _).
  change (inject_Z (10 ^ Z.of_nat 1)) with 10 in Hlo.
  assert (Hq : inject_Z 989 < inject_Z (toFixed (soc * 100) 1)).
  { change (inject_Z 989) with 989. lra. }
  rewrite <- Zlt_Qlt in Hq. lia.
Qed.

Lemma drawCells_shown (s : State) (a : CellPicture) :
  In a (drawCells s) ->
  ∃ cell, In cell (cells s) ∧
          shownVoltage a
          = toFixed (getMeasuredVoltage (chargingActive s) cell (currentForCalc s)) 2 ∧
          shownPercent a = toFixed (SOC cell * 100) 1.
Proof.
  intros Ha. apply list_elem_of_In, list_elem_of_lookup in Ha as (k & Hk).
  unfold drawCells in Hk. rewrite list_lookup_imap in Hk.
  destruct (cells s !! k) as [cell|] eqn:Ek; [|discriminate].
  injection Hk as <-. exists cell. split; [|split; reflexivity].
  apply list_elem_of_In, list_elem_of_lookup. eauto.
Qed.

Lemma done_voltages_close (s s' : State) :
  coherent s -> phase s ≠ Done ->
  updateSimulation s = Normal s' -> phase s' = Done ->
  (∀ c d, In c (cells s') -> In d (cells s') ->
          getMeasuredVoltage (chargingActive s') c (currentForCalc s')
          - getMeasuredVoltage (chargingActive s') d (currentForCalc s') < tolVoltage)
  ∧ ((simulationCase s = 3 ∨ simulationCase s = 4)%Z ->
     ∀ cell, In cell (cells s') -> 0.99 <= SOC cell).
Proof.
  intros (Hact & Hbal) Hnd Hstep Hd.
  apply updateSimulation_inv in Hstep as (s1 & -> & H1).
  destruct (endCondition_inv s1) as (Ec & Ea & Ecells & Ep).
  destruct (phase s) eqn:Hp; [| |congruence].
  - (* charging: the end condition of cases 3 and 4 fired *)
    apply chargingBranch_inv in H1 as (Hc1 & Hb).
    assert (Hs1 : phase s1 = Charging ∧ chargingActive s1 = true).
    { destruct Hb as [(_ & _ & Hp1 & _) | (Hp1 & Ha1 & _)].
      - destruct Ep as [Ep | (Ep & _)]; congruence.
      - split; [congruence | rewrite Ha1; auto]. }
    destruct Hs1 as (Hp1 & Ha1).
    destruct (endCondition_done s1 Hp1 Hd) as (Hcase & Hfull & Hspread).
    rewrite Ha1, andb_true_r in Hspread.
    split.
    + intros c d Hc Hdd.
      unfold currentForCalc. rewrite Ec, Ea, Ecells, Ha1, andb_true_r.
      rewrite Ecells in Hc, Hdd.
      apply (spreadBelowTol_pairwise _ Hspread);
        [ apply (in_map (fun cell => getMeasuredVoltage true cell _)), Hc
        | apply (in_map (fun cell => getMeasuredVoltage true cell _)), Hdd ].
    + intros _ cell Hin. rewrite Ecells in Hin.
      rewrite forallb_forall in Hfull. apply Qgeb_ge, Hfull, Hin.
  - (* balancing: the spread check of the balancing branch fired *)
    destruct (Hbal eq_refl) as (Hf & Hcase).
    pose proof (balancingBranch_inv _ _ H1) as (_ & Ha1 & Hp1 & _).
    assert (Hnc : phase s1 ≠ Charging) by (destruct Hp1; congruence).
    rewrite (endCondition_not_charging s1 Hnc) in *.
    pose proof (balancingBranch_done s s1 Hp H1 Hd) as Hspread.
    rewrite Ha1, Hf in *.
    split.
    + intros c d Hc Hdd.
      apply (spreadBelowTol_pairwise _ Hspread);
        [ apply (in_map (fun cell => getMeasuredVoltage false cell 0)), Hc
        | apply (in_map (fun cell => getMeasuredVoltage false cell 0)), Hdd ].
    + lia.
Qed.

(** X8: when a tick from a state whose flag agrees with its phase (as in
    every run) moves the phase to done, the voltages [drawCells] measures
    for the new state differ pairwise by less than tolVoltage, so the
    voltages it shows, rounded to two digits by [toFixed], differ by at most
    one hundredth of a volt; in cases 3 and 4 every cell has SOC at least
    0.99 and is shown with 99.0 percent or more. *)
Theorem done_means_balanced (s s' : State) :
  coherent s -> phase s ≠ Done ->
  updateSimulation s = Normal s' -> phase s' = Done ->
  (∀ c d, In c (cells s') -> In d (cells s') ->
          getMeasuredVoltage (chargingActive s') c (currentForCalc s')
          - getMeasuredVoltage (chargingActive s') d (currentForCalc s') < tolVoltage)
  ∧ (∀ a b, In a (drawCells s') -> In b (drawCells s') ->
            (shownVoltage a - shownVoltage b <= 1)%Z)
  ∧ ((simulationCase s = 3 ∨ simulationCase s = 4)%Z ->
     (∀ cell, In cell (cells s') -> 0.99 <= SOC cell)
     ∧ (∀ a, In a (drawCells s') -> (990 <= shownPercent a)%Z)).
Proof.
  intros Hco Hnd Hstep Hd.
  destruct (done_voltages_close s s' Hco Hnd Hstep Hd) as (Hclose & Hfull).
  split; [exact Hclose|]. split.
  - intros a b Hina Hinb.
    destruct (drawCells_shown s' a Hina) as (ca & Hca & -> & _).
    destruct (drawCells_shown s' b Hinb) as (cb & Hcb & -> & _).
    apply toFixed_close, Hclose; assumption.
  - intros Hcase. split; [exact (Hfull Hcase)|].
    intros a Hina. destruct (drawCells_shown s' a Hina) as (ca & Hca & _ & ->).
    apply toFixed_percent, (Hfull Hcase), Hca.
Qed.

Lemma fullState_coherent : coherent fullState.
Proof. split; [reflexivity | discriminate]. Qed.

Lemma done_means_balanced_witness :
  coherent fullState ∧ phase fullState ≠ Done ∧
  updateSimulation fullState = Normal fullStateNext ∧ phase fullStateNext = Done ∧
  ∀ a b, In a (drawCells fullStateNext) -> In b (drawCells fullStateNext) ->
         (shownVoltage a - shownVoltage b <= 1)%Z.
Proof.
  assert (Hnd : phase fullState ≠ Done) by discriminate.
  assert (Hstep : updateSimulation fullState = Normal fullStateNext)
    by (vm_compute; reflexivity).
  exact (conj fullState_coherent (conj Hnd (conj Hstep (conj eq_refl
           (proj1 (proj2 (done_means_balanced fullState fullStateNext
                            fullState_coherent Hnd Hstep eq_refl))))))).
Defined.

(** The bound of one hundredth is met: a case-2 pack whose voltages 3.984,
    3.984 and 3.987 are within the tolerance ends balancing and is shown
    with two different texts. *)
Example done_shows_a_hundredth_apart :
  let s := {| simulationCase := 2; phase := Balancing; chargingActive := false;
              cells := [ mkCell 3.0 0.82 0.05; mkCell 2.5 0.82 0.08;
                         mkCell 3.5 0.8225 0.03 ] |} in
  updateSimulation s = Normal (setPhase s Done) ∧
  map shownVoltage (drawCells (setPhase s Done)) = [398; 398; 399]%Z.
Proof. split; vm_compute; reflexivity. Qed.

(** ** Overvoltage protection and current regulation *)

Lemma chargeCell_full (I : Q) (c : Cell) :
  1 <= SOC c + I / capacity c -> SOC (chargeCell I c) == 1.
Proof.
  intros H. unfold chargeCell. cbv zeta. cbn [SOC setSOC].
  cmp_cases; cbn [SOC setSOC]; lra.
Qed.

Lemma full_cell_trips (s s' : State) (cell : Cell) :
  phase s = Charging -> chargingActive s = true ->
  (simulationCase s = 1 ∨ simulationCase s = 2)%Z ->
  In cell (cells s) -> 0 <= R cell ->
  1 <= SOC cell + I_BASE / capacity cell ->
  updateSimulation s = Normal s' ->
  phase s' = Balancing ∧ chargingActive s' = false.
Proof.
  intros Hp Ha Hcase Hin HR Hfull Hstep.
  assert (Ho : overvoltage s = true).
  { unfold overvoltage, chargedCells, effectiveCurrent. rewrite Ha.
    replace (simulationCase s =? 4)%Z with false by (destruct Hcase as [-> | ->]; reflexivity).
    apply existsb_exists. exists (chargeCell I_BASE cell).
    split; [now apply in_map|]. apply Qgeb_ge.
    pose proof (chargeCell_full I_BASE cell Hfull) as E.
    unfold getMeasuredVoltage, getOCV. rewrite E.
    assert (R (chargeCell I_BASE cell) = R cell) as ->
      by (destruct (chargeCell_shape I_BASE cell); assumption).
    unfold OVP, V_MIN, V_MAX, I_BASE. nra. }
  apply updateSimulation_inv in Hstep as (s1 & -> & H1). rewrite Hp in H1.
  apply chargingBranch_inv in H1 as (_ & Hb).
  destruct Hb as [(_ & _ & Hp1 & Ha1 & _) | (_ & _ & [(_ & _ & Hno) | (? & _)])].
  - rewrite endCondition_not_charging by congruence. auto.
  - rewrite (Hno Hcase) in Ho. discriminate.
  - lia.
Qed.

(** X9: in phase charging of case 1 or 2 with chargingActive true, if the
    increment takes some cell of non-negative resistance to SOC 1 or beyond,
    the tick ends in phase balancing with chargingActive false: a full cell
    always trips the protection. *)
Theorem full_cell_trips_protection (s s' : State) (cell : Cell) :
  phase s = Charging -> chargingActive s = true ->
  (simulationCase s = 1 ∨ simulationCase s = 2)%Z ->
  In cell (cells s) -> 0 <= R cell ->
  1 <= SOC cell + I_BASE / capacity cell ->
  updateSimulation s = Normal s' ->
  phase s' = Balancing ∧ chargingActive s' = false.
Proof. exact (full_cell_trips s s' cell). Qed.

Lemma full_cell_trips_protection_witness :
  phase nearlyFullState = Charging ∧ chargingActive nearlyFullState = true ∧
  (simulationCase nearlyFullState = 1 ∨ simulationCase nearlyFullState = 2)%Z ∧
  In (mkCell 3.5 0.999 0.03) (cells nearlyFullState) ∧
  0 <= R (mkCell 3.5 0.999 0.03) ∧
  1 <= SOC (mkCell 3.5 0.999 0.03) + I_BASE / capacity (mkCell 3.5 0.999 0.03) ∧
  updateSimulation nearlyFullState = Normal nearlyFullStateNext ∧
  phase nearlyFullStateNext = Balancing ∧ chargingActive nearlyFullStateNext = false.
Proof.
  assert (Hin : In (mkCell 3.5 0.999 0.03) (cells nearlyFullState))
    by (cbn; auto).
  assert (HR : 0 <= R (mkCell 3.5 0.999 0.03)) by (vm_compute; discriminate).
  assert (Hfull : 1 <= SOC (mkCell 3.5 0.999 0.03)
                       + I_BASE / capacity (mkCell 3.5 0.999 0.03))
    by (vm_compute; discriminate).
  assert (Hstep : updateSimulation nearlyFullState = Normal nearlyFullStateNext)
    by (vm_compute; reflexivity).
  exact (conj eq_refl (conj eq_refl (conj (or_introl eq_refl) (conj Hin (conj HR
           (conj Hfull (conj Hstep
              (full_cell_trips_protection nearlyFullState nearlyFullStateNext _
                 eq_refl eq_refl (or_introl eq_refl) Hin HR Hfull Hstep)))))))).
Defined.

Lemma regulated_iff (active : bool) (cs : list Cell) :
  getChargingCurrentCase4 active cs = I_BASE * 0.1 <->
  existsb (fun cell => Qgeb (getMeasuredVoltage active cell I_BASE) OVP) cs = true.
Proof.
  unfold getChargingCurrentCase4. cbv zeta. rewrite running_max_geb.
  replace (Qgeb 0 OVP) with false by reflexivity. cbn [orb].
  destruct (existsb _ _); split; try reflexivity; try discriminate.
Qed.

(** X10: in case 4, on a pack of well-formed cells, once
    [getChargingCurrentCase4] returns the reduced current [I_BASE * 0.1] it
    returns it after every further tick: no tick of case 4 lowers a SOC, so
    the cell that reached OVP stays there. *)
Theorem case4_taper_is_latched (s s' : State) :
  simulationCase s = 4%Z -> Forall okCell (cells s) ->
  updateSimulation s = Normal s' ->
  getChargingCurrentCase4 (chargingActive s) (cells s) = I_BASE * 0.1 ->
  getChargingCurrentCase4 (chargingActive s') (cells s') = I_BASE * 0.1.
Proof.
  intros Hc Hok Hstep Hreg.
  assert (Ha' : chargingActive s' = chargingActive s).
  { destruct (step_phase s s' Hstep) as (_ & Hp).
    destruct (phase s).
    - destruct Hp as [(_ & ?) | [(_ & _ & ?) | (_ & ? & _)]]; [assumption | lia | assumption].
    - destruct Hp as (_ & ?). assumption.
    - now subst s'. }
  rewrite Ha'. apply regulated_iff. apply regulated_iff in Hreg.
  apply existsb_exists in Hreg as (c & Hin & Hv). apply Qgeb_ge in Hv.
  assert (Hmono : Forall2 (fun c c' => SOC c <= SOC c' ∧ R c' = R c) (cells s) (cells s')).
  { apply updateSimulation_inv in Hstep as (s1 & -> & H1).
    destruct (endCondition_inv s1) as (_ & _ & -> & _).
    destruct (phase s).
    - apply chargingBranch_inv in H1 as (_ & Hb).
      assert (Hcs : cells s1 = chargedCells s).
      { destruct Hb as [([?|?] & _) | (_ & _ & [(_ & ? & _) | (? & _)])];
          [lia | lia | assumption | lia]. }
      rewrite Hcs.
      pose proof (chargedCells_mono s Hok) as Hm.
      pose proof (chargedCells_shape s) as Hsh.
      clear -Hm Hsh. induction Hm; inversion Hsh as [|? ? ? ? (_ & ?)]; subst;
        constructor; auto.
    - apply balancingBranch_inv in H1 as (_ & _ & _ & Hb).
      destruct Hb as [(? & _) | [(? & _) | (_ & _ & ->)]]; [lia | lia |].
      clear. induction (cells s); constructor; [split; [lra | reflexivity] | assumption].
    - subst s1. clear. induction (cells s); constructor; [split; [lra | reflexivity] | assumption]. }
  apply list_elem_of_In, list_elem_of_lookup in Hin as (k & Hk).
  destruct (Forall2_lookup_l _ _ _ _ _ Hmono Hk) as (c' & Hk' & Hle & HR).
  apply existsb_exists. exists c'. split.
  - apply list_elem_of_In, list_elem_of_lookup. eauto.
  - apply Qgeb_ge. unfold getMeasuredVoltage, getOCV, V_MIN, V_MAX in *.
    rewrite HR. lra.
Qed.

Lemma fullState_ok : Forall okCell (cells fullState).
Proof.
  unfold fullState, okCell. cbn [cells].
  repeat (constructor; [cbn; repeat split; lra|]). constructor.
Qed.

Lemma case4_taper_is_latched_witness :
  simulationCase fullState = 4%Z ∧ Forall okCell (cells fullState) ∧
  updateSimulation fullState = Normal fullStateNext ∧
  getChargingCurrentCase4 (chargingActive fullState) (cells fullState) = I_BASE * 0.1 ∧
  getChargingCurrentCase4 (chargingActive fullStateNext) (cells fullStateNext) = I_BASE * 0.1.
Proof.
  assert (Hstep : updateSimulation fullState = Normal fullStateNext)
    by (vm_compute; reflexivity).
  assert (Hreg : getChargingCurrentCase4 (chargingActive fullState) (cells fullState)
                 = I_BASE * 0.1) by (vm_compute; reflexivity).
  exact (conj eq_refl (conj fullState_ok (conj Hstep (conj Hreg
           (case4_taper_is_latched fullState fullStateNext eq_refl fullState_ok
              Hstep Hreg))))).
Defined.

(** ** The renderer *)

(** X11: for a cell of non-negative SOC the green bar lies inside the
    outline and stands on its bottom edge; its height is cellHeight times
    the SOC, capped at the full height when the SOC is 1 or more. *)
Theorem fill_bar_inside_outline (s : State) (i : nat) (cell : Cell) :
  0 <= SOC cell ->
  let p := drawCell s i cell in
  outlineY p <= fillY p ∧
  fillY p + fillHeight p == outlineY p + cellHeight ∧
  (SOC cell <= 1 -> fillHeight p == cellHeight * SOC cell) ∧
  (1 <= SOC cell -> fillHeight p == cellHeight ∧ fillY p == outlineY p).
Proof.
  intros H0. cbv zeta. unfold drawCell. cbv zeta. cbn [outlineY fillY fillHeight].
  unfold cellHeight, canvas_height, margin.
  destruct (Q.min_spec (SOC cell) 1) as [(Hlt & ->) | (Hle & ->)];
    repeat split; intros; try lra.
  all: assert (SOC cell == 1) as -> by lra; lra.
Qed.

Lemma fill_bar_inside_outline_witness :
  0 <= SOC (mkCell 2.5 0.5 0.08) ∧
  outlineY (drawCell levelState 1 (mkCell 2.5 0.5 0.08))
    <= fillY (drawCell levelState 1 (mkCell 2.5 0.5 0.08)).
Proof.
  assert (H0 : 0 <= SOC (mkCell 2.5 0.5 0.08)) by (vm_compute; discriminate).
  exact (conj H0
           (proj1 (fill_bar_inside_outline levelState 1 (mkCell 2.5 0.5 0.08) H0))).
Defined.

Lemma ofNat_S (n : nat) : ofNat (S n) == ofNat n + 1.
Proof. unfold ofNat. rewrite Nat2Z.inj_succ, <- Z.add_1_r, inject_Z_plus. reflexivity. Qed.

Lemma ofNat_le (n m : nat) : (n <= m)%nat -> ofNat n <= ofNat m.
Proof. intros H. unfold ofNat. rewrite <- Zle_Qle. lia. Qed.

Lemma gap_times (cs : list Cell) :
  (2 <= length cs)%nat ->
  (ofNat (length cs) - 1) * gap cs == canvas_width - 2 * margin - ofNat (length cs) * cellWidth.
Proof.
  intros Hn. unfold gap.
  pose proof (ofNat_le 2 (length cs) Hn) as H. change (ofNat 2) with 2 in H.
  field. lra.
Qed.

(** X12: with two cells or more, [drawCells] draws one picture per cell,
    the first outline starts at the left margin, the last one ends at the
    right margin, consecutive outlines are cellWidth + gap apart, and with
    at most six cells the gap is not negative, so outlines do not overlap. *)
Theorem cells_spread_between_margins (s : State) :
  (2 <= length (cells s))%nat ->
  length (drawCells s) = length (cells s)
  ∧ (∀ p, drawCells s !! 0%nat = Some p -> outlineX p == margin)
  ∧ (∀ p, drawCells s !! (length (cells s) - 1)%nat = Some p ->
          outlineX p + cellWidth == canvas_width - margin)
  ∧ (∀ i p q, drawCells s !! i = Some p -> drawCells s !! S i = Some q ->
              outlineX q - outlineX p == cellWidth + gap (cells s))
  ∧ ((length (cells s) <= 6)%nat -> 0 <= gap (cells s)).
Proof.
  intros Hn. unfold drawCells.
  pose proof (gap_times (cells s) Hn) as Hgap.
  pose proof (ofNat_le 2 (length (cells s)) Hn) as H2. change (ofNat 2) with 2 in H2.
  split; [apply length_imap|].
  split; [|split; [|split]].
  - intros p Hp. rewrite list_lookup_imap in Hp.
    destruct (cells s !! 0%nat); [|discriminate]. injection Hp as <-.
    cbn [outlineX drawCell]. change (ofNat 0) with 0. lra.
  - intros p Hp. rewrite list_lookup_imap in Hp.
    destruct (cells s !! _); [|discriminate]. injection Hp as <-.
    cbn [outlineX drawCell].
    assert (E : ofNat (length (cells s) - 1) == ofNat (length (cells s)) - 1).
    { replace (length (cells s)) with (S (length (cells s) - 1)) at 2 by lia.
      rewrite ofNat_S. lra. }
    rewrite E. unfold canvas_width, margin, cellWidth in *. nra.
  - intros i p q Hp Hq. rewrite list_lookup_imap in Hp, Hq.
    destruct (cells s !! i); [|discriminate]. injection Hp as <-.
    destruct (cells s !! S i); [|discriminate]. injection Hq as <-.
    cbn [outlineX drawCell]. rewrite ofNat_S. lra.
  - intros H6. pose proof (ofNat_le _ 6 H6) as H6'. change (ofNat 6) with 6 in H6'.
    unfold canvas_width, margin, cellWidth in *.
    assert (0 <= (ofNat (length (cells s)) - 1) * gap (cells s)) by lra.
    nra.
Qed.

Lemma cells_spread_between_margins_witness :
  (2 <= length (cells levelState))%nat ∧
  length (drawCells levelState) = length (cells levelState).
Proof.
  assert (Hn : (2 <= length (cells levelState))%nat) by (cbn; lia).
  exact (conj Hn (proj1 (cells_spread_between_margins levelState Hn))).
Defined.

(** The three pictures of the pack: outlines at x = 100, 350 and 600. *)
Example three_cell_layout :
  Forall2 (fun p x0 => outlineX p == x0 ∧ outlineY p == 100)
          (drawCells levelState) [100; 350; 600].
Proof. repeat constructor; vm_compute; reflexivity. Qed.

(** ** The page: reset button and animation loop *)

Lemma animate_running (p : Page) :
  simulationRunning p = true ->
  reachable (simulationCase (engine p)) (engine p) ->
  ∃ s', updateSimulation (engine p) = Normal s' ∧
        animate p = Normal
          (match phase s' with
           | Done => {| engine := s'; simulationRunning := false;
                        pendingFrames := pendingFrames p |}
           | _ => {| engine := s'; simulationRunning := true;
                     pendingFrames := S (pendingFrames p) |}
           end) ∧
        pageInv (match phase s' with
           | Done => {| engine := s'; simulationRunning := false;
                        pendingFrames := pendingFrames p |}
           | _ => {| engine := s'; simulationRunning := true;
                     pendingFrames := S (pendingFrames p) |}
           end).
Proof.
  intros Hrun Hr.
  destruct (reachable_step_total _ _ Hr) as [s' Hs'].
  exists s'. split; [exact Hs'|].
  assert (Hr' : reachable (simulationCase s') s').
  { destruct (step_phase _ _ Hs') as (-> & _). eapply reach_step; eassumption. }
  unfold animate. rewrite Hrun, Hs'. cbn [negb mbind completion_bind].
  unfold pageInv.
  destruct (phase s') eqn:Hp; (split; [reflexivity|]);
    cbn [engine simulationRunning pendingFrames]; rewrite Hp;
    (split; [exact Hr'|]); split; try (split; congruence); try lia; try discriminate.
Qed.

Lemma engine_reset_reachable (caseId : Z) (s : State) :
  Engine.resetSimulation caseId = Normal s -> reachable (simulationCase s) s.
Proof. intros H. injection H as <-. cbn. now apply reach_reset. Qed.

Lemma handle_inv (e : Event) (p : Page) :
  pageInv p -> ∃ p', handle e p = Normal p' ∧ pageInv p'.
Proof.
  intros (Hr & Hrun & Hpend). destruct e as [caseId|]; cbn [handle].
  - unfold resetSimulation. cbn [Engine.resetSimulation mbind completion_bind].
    set (p0 := {| engine := _; simulationRunning := true; pendingFrames := _ |}).
    destruct (animate_running p0 eq_refl) as (s' & _ & Ha & Hinv).
    { now apply reach_reset. }
    eauto.
  - destruct (pendingFrames p) as [|n] eqn:En.
    + exists p. split; [reflexivity|]. split; [exact Hr|]. split; [exact Hrun|].
      rewrite En. exact Hpend.
    + destruct (simulationRunning p) eqn:Erun.
      * set (p0 := {| engine := engine p; simulationRunning := true; pendingFrames := n |}).
        destruct (animate_running p0 eq_refl Hr) as (s' & _ & Ha & Hinv). eauto.
      * eexists. split; [reflexivity|].
        split; [exact Hr|]. cbn [engine simulationRunning pendingFrames].
        split; [exact Hrun | discriminate].
Qed.

Lemma handleAll_inv (es : list Event) (p : Page) :
  pageInv p -> ∃ p', handleAll es p = Normal p' ∧ pageInv p'.
Proof.
  revert p. induction es as [|e es IH]; intros p Hinv; cbn [handleAll]; [eauto|].
  destruct (handle_inv e p Hinv) as (p1 & -> & Hinv1). cbn [mbind completion_bind].
  auto.
Qed.

Lemma loaded_inv : ∃ p, loaded = Normal p ∧ pageInv p.
Proof.
  unfold loaded, resetSimulation. cbn [Engine.resetSimulation mbind completion_bind].
  set (p0 := {| engine := _; simulationRunning := true; pendingFrames := _ |}).
  destruct (animate_running p0 eq_refl) as (s' & _ & Ha & Hinv).
  { now apply reach_reset. }
  eauto.
Qed.

Lemma session_inv (es : list Event) : ∃ p, session es = Normal p ∧ pageInv p.
Proof.
  unfold session. destruct loaded_inv as (p0 & -> & Hinv0).
  cbn [mbind completion_bind]. apply handleAll_inv, Hinv0.
Qed.

(** X13: whatever clicks on the reset button (with any identifier in the
    selector) and animation frames the loaded page handles, no handler
    throws, the engine state is a state of a run of the case it holds, the
    animation loop runs exactly while the phase is not done, and while it
    runs at least one call of [animate] is queued. *)
Theorem page_session_sound (es : list Event) :
  ∃ p, session es = Normal p ∧
       reachable (simulationCase (engine p)) (engine p) ∧
       (simulationRunning p = true <-> phase (engine p) ≠ Done) ∧
       (simulationRunning p = true -> (1 <= pendingFrames p)%nat).
Proof. exact (session_inv es). Qed.

Lemma handleAll_app (es1 es2 : list Event) (p : Page) :
  handleAll (es1 ++ es2) p = (p' ← handleAll es1 p; handleAll es2 p').
Proof.
  revert p. induction es1 as [|e es1 IH]; intros p; cbn [handleAll app].
  - reflexivity.
  - destruct (handle e p) as [p1|err]; cbn [mbind completion_bind]; auto.
Qed.

Lemma first_tick_not_done (caseId : Z) (s' : State) :
  updateSimulation {| simulationCase := caseId; phase := Charging;
                      chargingActive := true; cells := initCells |} = Normal s' ->
  phase s' = Charging.
Proof.
  intros H. destruct (step_phase _ _ H) as (_ & Hp). cbn in Hp.
  destruct Hp as [(Hp & _) | [(_ & _ & Hc) | (_ & _ & Hc)]]; [exact Hp | |].
  - destruct Hc as [-> | ->]; vm_compute in H; injection H as <-; reflexivity.
  - destruct Hc as [-> | ->]; vm_compute in H; injection H as <-; reflexivity.
Qed.

(** X14: a click on the reset button never cancels the calls of [animate]
    that are queued: after the click the engine is one tick past the reset
    state, still charging, the loop runs, and one more call is queued than
    before, so a click during a run leaves two or more loops ticking. *)
Theorem reset_click_adds_loop (es : list Event) (caseId : Z) :
  ∃ p p',
    session es = Normal p ∧
    session (es ++ [Click caseId]) = Normal p' ∧
    Engine.phase (engine p') = Charging ∧
    simulationRunning p' = true ∧
    pendingFrames p' = S (pendingFrames p) ∧
    ∃ s0, Engine.resetSimulation caseId = Normal s0 ∧
          updateSimulation s0 = Normal (engine p').
Proof.
  destruct (session_inv es) as (p & Hp & _).
  exists p. unfold session in *.
  destruct loaded as [p0|]; [|discriminate]. cbn [mbind completion_bind] in *.
  rewrite handleAll_app, Hp. cbn [mbind completion_bind handleAll handle].
  unfold Driver.resetSimulation.
  cbn [Engine.resetSimulation mbind completion_bind].
  unfold animate. cbn [simulationRunning negb engine pendingFrames].
  set (s0 := {| simulationCase := caseId; phase := Charging;
                chargingActive := true; cells := initCells |}).
  destruct (step_total s0) as [s' Hs']; [discriminate|].
  pose proof (first_tick_not_done caseId s' Hs') as Hph.
  rewrite Hs'. cbn [mbind completion_bind]. rewrite Hph.
  eexists. split; [reflexivity|]. split; [reflexivity|].
  cbn [engine simulationRunning pendingFrames].
  repeat split; try assumption. exists s0. split; [reflexivity | exact Hs'].
Qed.

(** ** The runs of the stand-alone pages *)

Lemma stateAfter_reachable (caseId : Z) (n : nat) : reachable caseId (stateAfter caseId n).
Proof.
  destruct (ticks_normal caseId n) as [s Hs].
  unfold stateAfter. rewrite Hs. now apply (ticks_reachable caseId n).
Qed.

(** X15: after any number of ticks from its own reset, each stand-alone
    page holds three cells with 0 <= SOC <= 1, and has chargingActive true
    whenever its phase is charging. *)
Theorem pages_run_invariant (n : nat) :
  let js := Nat.iter n PassiveJs.updateSimulation PassiveJs.resetSimulation in
  let html := Nat.iter n PassiveHtml.updateSimulation PassiveHtml.resetSimulation in
  (length (PassiveJs.cells js) = 3%nat ∧
   (∀ cell, In cell (PassiveJs.cells js) -> 0 <= SOC cell <= 1) ∧
   (PassiveJs.phase js = Charging -> PassiveJs.chargingActive js = true))
  ∧
  (length (PassiveHtml.cells html) = 3%nat ∧
   (∀ cell, In cell (PassiveHtml.cells html) -> 0 <= SOC cell <= 1) ∧
   (PassiveHtml.phase html = Charging -> PassiveHtml.chargingActive html = true)).
Proof.
  cbv zeta. destruct (runs_agree n) as (<- & <-).
  destruct (reachable_inv 1 _ (stateAfter_reachable 1 n)) as (_ & Hok & Hlen & Hact & _).
  cbn [toPassiveJs toPassiveHtml PassiveJs.cells PassiveJs.phase PassiveJs.chargingActive
       PassiveHtml.cells PassiveHtml.phase PassiveHtml.chargingActive].
  assert (Hb : ∀ cell, In cell (cells (stateAfter 1 n)) -> 0 <= SOC cell <= 1).
  { intros cell Hin. rewrite Forall_forall in Hok. apply list_elem_of_In in Hin.
    destruct (Hok cell Hin) as (_ & ? & ?). auto. }
  auto.
Qed.

(** ** How long the phases last *)

Lemma steps_snoc (n : nat) (s : State) :
  steps (S n) s = (s' ← steps n s; updateSimulation s').
Proof.
  revert s. induction n as [|n IH]; intros s.
  - cbn [steps mbind completion_bind]. destruct (updateSimulation s); reflexivity.
  - change (steps (S (S n)) s) with (s1 ← updateSimulation s; steps (S n) s1).
    change (steps (S n) s) with (s1 ← updateSimulation s; steps n s1).
    destruct (updateSimulation s) as [s1|e]; cbn [mbind completion_bind]; [|reflexivity].
    apply IH.
Qed.

Lemma stateAfter_succ (caseId : Z) (n : nat) :
  updateSimulation (stateAfter caseId n) = Normal (stateAfter caseId (S n)).
Proof.
  destruct (ticks_normal caseId n) as [s Hs].
  destruct (ticks_normal caseId (S n)) as [s' Hs'].
  unfold stateAfter. rewrite Hs, Hs'.
  unfold ticks in *. cbn [Engine.resetSimulation mbind completion_bind] in *.
  rewrite steps_snoc, Hs in Hs'. exact Hs'.
Qed.

(** A run reaches a phase within [S M] ticks when some property of the
    states still charging holds at reset, is kept by every tick that does
    not reach the phase, and forces the phase at the tick after [M]. *)
Lemma run_reaches (caseId : Z) (target : Phase) (Inv : nat -> State -> Prop) (M : nat) :
  Inv 0%nat (stateAfter caseId 0) ->
  (∀ n s s', (n < M)%nat -> reachable caseId s -> Inv n s ->
             updateSimulation s = Normal s' ->
             phase s' = target ∨ Inv (S n) s') ->
  (∀ s s', reachable caseId s -> Inv M s -> updateSimulation s = Normal s' ->
           phase s' = target) ->
  ∃ n, (n <= S M)%nat ∧ phase (stateAfter caseId n) = target.
Proof.
  intros H0 Hstep Hlast.
  assert (H : ∀ n, (n <= M)%nat ->
            (∃ m, (m <= n)%nat ∧ phase (stateAfter caseId m) = target)
            ∨ Inv n (stateAfter caseId n)).
  { induction n as [|n IH]; intros Hn; [now right|].
    destruct IH as [(m & Hm & Ht) | Hinv]; [lia | left; exists m; split; [lia | exact Ht] |].
    destruct (Hstep n _ _ ltac:(lia) (stateAfter_reachable caseId n) Hinv
                (stateAfter_succ caseId n)) as [Ht | Hinv'].
    - left. exists (S n). auto.
    - now right. }
  destruct (H M (le_n M)) as [(m & Hm & Ht) | Hinv].
  - exists m. split; [lia | exact Ht].
  - exists (S M). split; [lia|].
    exact (Hlast _ _ (stateAfter_reachable caseId M) Hinv (stateAfter_succ caseId M)).
Qed.

Lemma ofTicks_S (n : nat) : ofTicks (S n) == ofTicks n + 1.
Proof. unfold ofTicks. rewrite Nat2Z.inj_succ, <- Z.add_1_r, inject_Z_plus. reflexivity. Qed.

Lemma ofTicks_le (n m : nat) : (n <= m)%nat -> ofTicks n <= ofTicks m.
Proof. intros H. unfold ofTicks. rewrite <- Zle_Qle. lia. Qed.

Lemma ofTicks_nonneg (n : nat) : 0 <= ofTicks n.
Proof. apply (ofTicks_le 0 n). lia. Qed.

Lemma run_third_cell (caseId : Z) (s : State) :
  reachable caseId s ->
  ∃ cell, cells s !! 2%nat = Some cell ∧ capacity cell = 3.5 ∧ R cell = 0.03 ∧ okCell cell.
Proof.
  intros Hr. pose proof (reachable_shape caseId s Hr) as Hsh.
  destruct (reachable_inv caseId s Hr) as (_ & Hok & _).
  destruct (Forall2_lookup_l _ _ _ 2%nat _ Hsh eq_refl) as (cell & Hcell & Hcap & HR).
  exists cell. split; [exact Hcell|]. cbn in Hcap, HR.
  split; [exact Hcap|]. split; [exact HR|].
  exact (Forall_lookup_1 _ _ _ _ Hok Hcell).
Qed.

(** X16: in a run of case 1 or 2 the overvoltage protection trips within
    70 ticks of the reset: by then the phase is balancing and chargingActive
    is false. *)
Theorem protection_trips_within_70_ticks (caseId : Z) :
  (caseId = 1 ∨ caseId = 2)%Z ->
  ∃ n, (n <= 70)%nat ∧
       phase (stateAfter caseId n) = Balancing ∧
       chargingActive (stateAfter caseId n) = false.
Proof.
  intros Hcase.
  destruct (run_reaches caseId Balancing thirdCellCharged 69) as (n & Hn & Hp).
  - split; [reflexivity|]. intros cell [= <-]. right. vm_compute. discriminate.
  - intros n s s' Hn Hr (Hp & Hinv) Hstep.
    destruct (reachable_inv caseId s Hr) as (Hc & _ & _ & Hact & _).
    destruct (run_third_cell caseId s Hr) as (c3 & Hc3 & Hcap & HR & (_ & H0 & H1)).
    specialize (Hinv c3 Hc3).
    destruct (step_phase s s' Hstep) as (_ & Hph). rewrite Hp, Hc in Hph.
    destruct Hph as [(Hp' & _) | [(Hp' & _) | (_ & _ & ?)]]; [right | now left | lia].
    split; [exact Hp'|].
    apply updateSimulation_inv in Hstep as (s1 & -> & H1'). rewrite Hp in H1'.
    destruct (endCondition_inv s1) as (_ & _ & -> & _).
    apply chargingBranch_inv in H1' as (_ & Hb).
    assert (Hcs : cells s1 = chargedCells s).
    { destruct Hb as [(_ & _ & _ & _ & ?) | (_ & _ & [(_ & ? & _) | (? & _)])];
        [assumption | assumption | lia]. }
    rewrite Hcs. unfold chargedCells, effectiveCurrent. rewrite (Hact Hp), Hc.
    replace (caseId =? 4)%Z with false by (destruct Hcase as [-> | ->]; reflexivity).
    intros cell Hcell. rewrite map_lookup, Hc3 in Hcell. injection Hcell as <-.
    unfold chargeCell. cbv zeta. rewrite Hcap. cbn [SOC setSOC]. unfold I_BASE.
    rewrite ofTicks_S.
    assert (Hq : 0.005 / 3.5 == 1 # 700) by reflexivity.
    cmp_cases; cbn [SOC setSOC]; [left; apply Qle_refl|].
    rewrite Hq in *. destruct Hinv; [left | right]; lra.
  - intros s s' Hr (Hp & Hinv) Hstep.
    destruct (reachable_inv caseId s Hr) as (Hc & _ & _ & Hact & _).
    destruct (run_third_cell caseId s Hr) as (c3 & Hc3 & Hcap & HR & _).
    specialize (Hinv c3 Hc3).
    destruct (full_cell_trips s s' c3 Hp (Hact Hp)) as (? & _); auto.
    + lia.
    + apply list_elem_of_In, list_elem_of_lookup. eauto.
    + rewrite HR. lra.
    + rewrite Hcap. unfold I_BASE. change (ofTicks 69) with 69 in Hinv.
      assert (Hq : 0.005 / 3.5 == 1 # 700) by reflexivity. rewrite Hq.
      destruct Hinv; lra.
  - exists n. split; [exact Hn|]. split; [exact Hp|].
    apply (reachable_flag caseId _ (stateAfter_reachable caseId n)).
    split; [congruence | exact Hcase].
Qed.

Lemma protection_trips_within_70_ticks_witness :
  (2 = 1 ∨ 2 = 2)%Z ∧
  ∃ n, (n <= 70)%nat ∧
       phase (stateAfter 2 n) = Balancing ∧
       chargingActive (stateAfter 2 n) = false.
Proof.
  exact (conj (or_intror eq_refl)
           (protection_trips_within_70_ticks 2 (or_intror eq_refl))).
Defined.

Lemma shape_resistances (cs : list Cell) :
  Forall2 sameShape initCells cs -> Forall (fun c => 0 <= R c ∧ R c <= 0.08) cs.
Proof.
  unfold initCells. intros H.
  repeat match goal with
         | H : Forall2 _ (_ :: _) _ |- _ =>
             let HR := fresh "HR" in
             inversion H as [|? ? ? ? (_ & HR)]; clear H; subst; cbn in HR
         | H : Forall2 _ [] _ |- _ => inversion H; clear H; subst
         end.
  repeat constructor; cbn; rewrite ?HR, ?HR0, ?HR1; lra.
Qed.

Lemma run_pack (caseId : Z) (s : State) :
  reachable caseId s ->
  ∃ c1 c2 c3, cells s = [c1; c2; c3] ∧
    capacity c1 = 3.0 ∧ capacity c2 = 2.5 ∧ capacity c3 = 3.5 ∧
    okCell c1 ∧ okCell c2 ∧ okCell c3.
Proof.
  intros Hr. pose proof (reachable_shape caseId s Hr) as Hsh.
  destruct (reachable_inv caseId s Hr) as (_ & Hok & _).
  unfold initCells in Hsh. revert Hok. generalize dependent (cells s). intros cs Hsh.
  repeat match goal with
         | H : Forall2 _ (_ :: _) _ |- _ =>
             let HC := fresh "HC" in
             inversion H as [|? ? ? ? (HC & _)]; clear H; subst; cbn in HC
         | H : Forall2 _ [] _ |- _ => inversion H; clear H; subst
         end.
  intros Hok. inversion Hok as [|? ? Ho1 Hok1]; subst.
  inversion Hok1 as [|? ? Ho2 Hok2]; subst. inversion Hok2 as [|? ? Ho3 _]; subst.
  eexists _, _, _. split; [reflexivity|]. auto 10.
Qed.

Lemma spreadBelowTol_intro (vs : list Q) :
  (∀ a b, In a vs -> In b vs -> a - b < tolVoltage) -> spreadBelowTol vs = true.
Proof.
  intros H. unfold spreadBelowTol.
  destruct (Math_max vs) as [hi|] eqn:Ehi; [|reflexivity].
  destruct (Math_min vs) as [lo|] eqn:Elo; [|reflexivity].
  destruct (Math_max_spec _ _ Ehi) as (_ & a & Ha & Ea).
  destruct (Math_min_spec _ _ Elo) as (_ & b & Hb & Eb).
  apply Qltb_lt. specialize (H a b Ha Hb). lra.
Qed.

(** A charging tick of case 3 or 4 that leaves every cell at SOC 0.999 or
    more ends the run. *)
Lemma full_pack_ends (caseId : Z) (s s' : State) :
  (caseId = 3 ∨ caseId = 4)%Z -> reachable caseId s -> phase s = Charging ->
  updateSimulation s = Normal s' ->
  (∀ cell, In cell (cells s') -> 0.999 <= SOC cell) ->
  phase s' = Done.
Proof.
  intros Hcase Hr Hp Hstep Hfull.
  pose proof (reach_step _ _ _ Hr Hstep) as Hr'.
  destruct (reachable_inv caseId s Hr) as (Hc & _ & _ & Hact & _).
  destruct (reachable_inv caseId s' Hr') as (_ & Hok' & _).
  pose proof (shape_resistances _ (reachable_shape caseId s' Hr')) as HR'.
  apply updateSimulation_inv in Hstep as (s1 & -> & H1). rewrite Hp in H1.
  destruct (endCondition_inv s1) as (_ & _ & Ecells & _). rewrite Ecells in *.
  apply chargingBranch_inv in H1 as (Hc1 & Hb).
  assert (Hs1 : phase s1 = Charging ∧ chargingActive s1 = true).
  { destruct Hb as [([?|?] & _) | (Hp1 & Ha1 & _)]; [lia | lia |].
    split; [congruence | rewrite Ha1; auto]. }
  destruct Hs1 as (Hp1 & Ha1).
  unfold endCondition. cbv zeta. rewrite Hp1, Hc1, Hc, Ha1.
  replace ((caseId =? 3)%Z || (caseId =? 4)%Z)%bool with true
    by (destruct Hcase as [-> | ->]; reflexivity).
  cbn [andb].
  assert (Hallfull : forallb (fun cell => Qgeb (SOC cell) 0.99) (cells s1) = true).
  { apply forallb_forall. intros cell Hin. apply Qgeb_ge.
    specialize (Hfull cell Hin). lra. }
  rewrite Hallfull. cbn [andb].
  set (cur := if ((caseId =? 4)%Z && true)%bool
              then getChargingCurrentCase4 true (cells s1) else I_BASE).
  assert (Hcur : cur = I_BASE * 0.1 ∨ cur = I_BASE).
  { unfold cur. destruct (_ && _)%bool; [apply regulated_current_cases | now right]. }
  rewrite spreadBelowTol_intro; [reflexivity|].
  intros a b Hina Hinb.
  apply in_map_iff in Hina as (ca & <- & Hca), Hinb as (cb & <- & Hcb).
  pose proof (Hfull ca Hca). pose proof (Hfull cb Hcb).
  rewrite Forall_forall in Hok', HR'.
  destruct (Hok' ca (proj2 (list_elem_of_In _ _) Hca)) as (_ & _ & ?).
  destruct (Hok' cb (proj2 (list_elem_of_In _ _) Hcb)) as (_ & _ & ?).
  destruct (HR' ca (proj2 (list_elem_of_In _ _) Hca)).
  destruct (HR' cb (proj2 (list_elem_of_In _ _) Hcb)).
  unfold getMeasuredVoltage, getOCV, V_MIN, V_MAX, tolVoltage.
  destruct Hcur as [-> | ->]; unfold I_BASE; lra.
Qed.

Lemma chargeCell_soc (I : Q) (c : Cell) :
  (1 < SOC c + I / capacity c ∧ SOC (chargeCell I c) = 1) ∨
  (SOC c + I / capacity c <= 1 ∧ SOC (chargeCell I c) = SOC c + I / capacity c).
Proof.
  unfold chargeCell. cbv zeta. cbn [SOC setSOC]. cmp_cases; cbn [SOC setSOC]; auto.
Qed.

Lemma chargeCell_bound (I : Q) (c : Cell) (full inc b q : Q) :
  I / capacity c == inc -> q <= inc -> 1 <= full + inc -> full <= 1 ->
  full <= SOC c ∨ b <= SOC c ->
  1 <= SOC (chargeCell I c) ∨ b + q <= SOC (chargeCell I c).
Proof.
  intros Hinc Hq Hfull Hfull1 Hb.
  destruct (chargeCell_soc I c) as [(Hgt & ->) | (Hle & ->)]; rewrite Hinc in *.
  - left. lra.
  - destruct Hb; [left | right]; lra.
Qed.

Lemma case4_tick_bounds (n : nat) (s s' : State) :
  reachable 4 s -> taperCharged n s -> updateSimulation s = Normal s' ->
  packAbove 1 (0.7 + ofTicks (S n) * (1 # 6000)) (0.5 + ofTicks (S n) * (1 # 5000))
              (0.9 + ofTicks (S n) * (1 # 7000)) (cells s').
Proof.
  intros Hr (Hp & Hinv) Hstep.
  destruct (reachable_inv 4 s Hr) as (Hc & _ & _ & Hact & _).
  destruct (run_pack 4 s Hr) as (c1 & c2 & c3 & Hcells & Hcap1 & Hcap2 & Hcap3 &
                                 (_ & _ & H1) & (_ & _ & H2) & (_ & _ & H3)).
  destruct (Hinv c1 c2 c3 Hcells) as (B1 & B2 & B3).
  apply updateSimulation_inv in Hstep as (s1 & -> & Hs1). rewrite Hp in Hs1.
  destruct (endCondition_inv s1) as (_ & _ & -> & _).
  apply chargingBranch_inv in Hs1 as (_ & Hb).
  assert (Hcs : cells s1 = chargedCells s).
  { destruct Hb as [([?|?] & _) | (_ & _ & [(_ & ? & _) | (? & _)])];
      [lia | lia | assumption | lia]. }
  rewrite Hcs. unfold chargedCells. rewrite (Hact Hp), Hcells. cbn [map].
  intros c1' c2' c3' [= <- <- <-].
  assert (HI : effectiveCurrent s = I_BASE * 0.1 ∨ effectiveCurrent s = I_BASE).
  { unfold effectiveCurrent. rewrite Hc. apply regulated_current_cases. }
  rewrite !ofTicks_S.
  assert (A1 : ∀ b, 1 <= SOC c1 ∨ b <= SOC c1 ->
             1 <= SOC (chargeCell (effectiveCurrent s) c1)
             ∨ b + (1 # 6000) <= SOC (chargeCell (effectiveCurrent s) c1)).
  { intros b Hbb. destruct HI as [-> | ->].
    - apply (chargeCell_bound _ _ 1 (1 # 6000)); try lra. rewrite Hcap1. reflexivity.
    - apply (chargeCell_bound _ _ 1 (1 # 600)); try lra. rewrite Hcap1. reflexivity. }
  assert (A2 : ∀ b, 1 <= SOC c2 ∨ b <= SOC c2 ->
             1 <= SOC (chargeCell (effectiveCurrent s) c2)
             ∨ b + (1 # 5000) <= SOC (chargeCell (effectiveCurrent s) c2)).
  { intros b Hbb. destruct HI as [-> | ->].
    - apply (chargeCell_bound _ _ 1 (1 # 5000)); try lra. rewrite Hcap2. reflexivity.
    - apply (chargeCell_bound _ _ 1 (1 # 500)); try lra. rewrite Hcap2. reflexivity. }
  assert (A3 : ∀ b, 1 <= SOC c3 ∨ b <= SOC c3 ->
             1 <= SOC (chargeCell (effectiveCurrent s) c3)
             ∨ b + (1 # 7000) <= SOC (chargeCell (effectiveCurrent s) c3)).
  { intros b Hbb. destruct HI as [-> | ->].
    - apply (chargeCell_bound _ _ 1 (1 # 7000)); try lra. rewrite Hcap3. reflexivity.
    - apply (chargeCell_bound _ _ 1 (1 # 700)); try lra. rewrite Hcap3. reflexivity. }
  split; [|split].
  - destruct (A1 _ B1); [left | right]; lra.
  - destruct (A2 _ B2); [left | right]; lra.
  - destruct (A3 _ B3); [left | right]; lra.
Qed.

Lemma packAbove_all (full b1 b2 b3 floor : Q) (cs : list Cell) :
  length cs = 3%nat -> packAbove full b1 b2 b3 cs ->
  floor <= full -> floor <= b1 -> floor <= b2 -> floor <= b3 ->
  ∀ cell, In cell cs -> floor <= SOC cell.
Proof.
  intros Hlen Hpack Hf H1 H2 H3 cell Hin.
  destruct cs as [|c1 [|c2 [|c3 [|? ?]]]]; try discriminate.
  destruct (Hpack c1 c2 c3 eq_refl) as (B1 & B2 & B3).
  destruct Hin as [<- | [<- | [<- | []]]];
    [destruct B1 | destruct B2 | destruct B3]; lra.
Qed.

(** X17: the run of case 4 ends: within 2500 ticks of the reset the phase
    is done. *)
Theorem case4_run_ends :
  ∃ n, (n <= 2500)%nat ∧ phase (stateAfter 4 n) = Done.
Proof.
  apply (run_reaches 4 Done taperCharged 2499).
  - split; [reflexivity|]. intros c1 c2 c3 [= <- <- <-].
    repeat split; right; vm_compute; discriminate.
  - intros n s s' Hn Hr Hinv Hstep.
    pose proof (case4_tick_bounds n s s' Hr Hinv Hstep) as Hb.
    destruct Hinv as (Hp & _).
    destruct (step_phase s s' Hstep) as (_ & Hph). rewrite Hp in Hph.
    destruct (reachable_inv 4 s Hr) as (Hc & _). rewrite Hc in Hph.
    destruct Hph as [(Hp' & _) | [(_ & _ & ?) | (Hp' & _)]]; [right | lia | now left].
    split; assumption.
  - intros s s' Hr Hinv Hstep.
    pose proof (case4_tick_bounds 2499 s s' Hr Hinv Hstep) as Hb.
    destruct Hinv as (Hp & _).
    apply (full_pack_ends 4 s s'); auto.
    destruct (reachable_inv 4 s' (reach_step _ _ _ Hr Hstep)) as (_ & _ & Hlen & _).
    apply (packAbove_all _ _ _ _ 0.999 _ Hlen Hb).
    all: change (ofTicks 2500) with 2500; lra.
Qed.

Lemma transferCharge_lower (sc : Scan) (cs : list Cell) (k : nat) (x : Cell) :
  Forall okCell cs ->
  transferCharge sc cs !! k = Some x ->
  ∃ c, cs !! k = Some c ∧ SOC c - dActive <= SOC x.
Proof.
  intros Hok. unfold transferCharge. destruct (Qgtb _ _).
  2:{ intros Hx. exists x. split; [exact Hx | unfold dActive; lra]. }
  cbv zeta. rewrite !lookup_alter_at.
  destruct (cs !! k) as [c|] eqn:Ek; [|discriminate].
  cbn [fmap option_fmap option_map]. intros [= <-]. exists c.
  split; [reflexivity|].
  destruct (Forall_lookup_1 _ _ _ _ Hok Ek) as (_ & H0 & H1).
  unfold dActive.
  do 2 case_bool_decide; cbn [id SOC setSOC];
    repeat (cmp_cases; cbn [id SOC setSOC] in * ); lra.
Qed.

Lemma case3_tick_bounds (n : nat) (s s' : State) :
  reachable 3 s -> equalizedCharged n s -> updateSimulation s = Normal s' ->
  packAbove 0.999 (0.7 + ofTicks (S n) * (1 # 1500)) (0.5 + ofTicks (S n) * (1 # 1000))
                  (0.9 + ofTicks (S n) * (3 # 7000)) (cells s').
Proof.
  intros Hr (Hp & Hinv) Hstep.
  destruct (reachable_inv 3 s Hr) as (Hc & Hok & _ & Hact & _).
  destruct (run_pack 3 s Hr) as (c1 & c2 & c3 & Hcells & Hcap1 & Hcap2 & Hcap3 &
                                 (_ & _ & H1) & (_ & _ & H2) & (_ & _ & H3)).
  destruct (Hinv c1 c2 c3 Hcells) as (B1 & B2 & B3).
  pose proof (chargedCells_ok s Hok) as Hokc.
  apply updateSimulation_inv in Hstep as (s1 & -> & Hs1). rewrite Hp in Hs1.
  destruct (endCondition_inv s1) as (_ & _ & -> & _).
  apply chargingBranch_inv in Hs1 as (_ & Hb).
  assert (Hcs : ∃ sc, cells s1 = transferCharge sc (chargedCells s)).
  { destruct Hb as [([?|?] & _) | (_ & _ & [(? & _) | (_ & sc & _ & ?)])];
      [lia | lia | lia | eauto]. }
  destruct Hcs as (sc & Hcs). rewrite Hcs.
  assert (Hch : chargedCells s = [chargeCell I_BASE c1; chargeCell I_BASE c2; chargeCell I_BASE c3]).
  { unfold chargedCells, effectiveCurrent. rewrite (Hact Hp), Hc, Hcells. reflexivity. }
  rewrite Hch in *.
  assert (A1 : 1 <= SOC (chargeCell I_BASE c1)
               ∨ 0.7 + ofTicks n * (1 # 1500) + (1 # 600) <= SOC (chargeCell I_BASE c1)).
  { apply (chargeCell_bound _ _ 0.999 (1 # 600)); try lra. rewrite Hcap1. reflexivity. }
  assert (A2 : 1 <= SOC (chargeCell I_BASE c2)
               ∨ 0.5 + ofTicks n * (1 # 1000) + (1 # 500) <= SOC (chargeCell I_BASE c2)).
  { apply (chargeCell_bound _ _ 0.999 (1 # 500)); try lra. rewrite Hcap2. reflexivity. }
  assert (A3 : 1 <= SOC (chargeCell I_BASE c3)
               ∨ 0.9 + ofTicks n * (3 # 7000) + (1 # 700) <= SOC (chargeCell I_BASE c3)).
  { apply (chargeCell_bound _ _ 0.999 (1 # 700)); try lra. rewrite Hcap3. reflexivity. }
  intros c1' c2' c3' E.
  assert (L1 : transferCharge sc [chargeCell I_BASE c1; chargeCell I_BASE c2; chargeCell I_BASE c3]
               !! 0%nat = Some c1') by (rewrite E; reflexivity).
  assert (L2 : transferCharge sc [chargeCell I_BASE c1; chargeCell I_BASE c2; chargeCell I_BASE c3]
               !! 1%nat = Some c2') by (rewrite E; reflexivity).
  assert (L3 : transferCharge sc [chargeCell I_BASE c1; chargeCell I_BASE c2; chargeCell I_BASE c3]
               !! 2%nat = Some c3') by (rewrite E; reflexivity).
  apply (transferCharge_lower _ _ _ _ Hokc) in L1 as (a1 & [= <-] & G1).
  apply (transferCharge_lower _ _ _ _ Hokc) in L2 as (a2 & [= <-] & G2).
  apply (transferCharge_lower _ _ _ _ Hokc) in L3 as (a3 & [= <-] & G3).
  unfold dActive in *. rewrite !ofTicks_S.
  split; [|split].
  - destruct A1; [left | right]; lra.
  - destruct A2; [left | right]; lra.
  - destruct A3; [left | right]; lra.
Qed.

(** X18: the run of case 3 ends: within 499 ticks of the reset the phase
    is done. *)
Theorem case3_run_ends :
  ∃ n, (n <= 499)%nat ∧ phase (stateAfter 3 n) = Done.
Proof.
  apply (run_reaches 3 Done equalizedCharged 498).
  - split; [reflexivity|]. intros c1 c2 c3 [= <- <- <-].
    repeat split; right; vm_compute; discriminate.
  - intros n s s' Hn Hr Hinv Hstep.
    pose proof (case3_tick_bounds n s s' Hr Hinv Hstep) as Hb.
    destruct Hinv as (Hp & _).
    destruct (step_phase s s' Hstep) as (_ & Hph). rewrite Hp in Hph.
    destruct (reachable_inv 3 s Hr) as (Hc & _). rewrite Hc in Hph.
    destruct Hph as [(Hp' & _) | [(_ & _ & ?) | (Hp' & _)]]; [right | lia | now left].
    split; assumption.
  - intros s s' Hr Hinv Hstep.
    pose proof (case3_tick_bounds 498 s s' Hr Hinv Hstep) as Hb.
    destruct Hinv as (Hp & _).
    apply (full_pack_ends 3 s s'); auto.
    destruct (reachable_inv 3 s' (reach_step _ _ _ Hr Hstep)) as (_ & _ & Hlen & _).
    apply (packAbove_all _ _ _ _ 0.999 _ Hlen Hb).
    all: change (ofTicks 499) with 499; lra.
Qed.

(** ** What one animation frame does *)

(** X19: in every session of the page, handling one more queued frame
    while the loop runs advances the engine by exactly one tick of
    [updateSimulation], and keeps the number of queued calls unless that
    tick ends the run; once the loop has stopped a frame changes neither the
    engine state nor the flag. *)
Theorem frame_advances_one_tick (es : list Event) :
  ∃ p p',
    session es = Normal p ∧
    session (es ++ [Frame]) = Normal p' ∧
    (simulationRunning p = true ->
     updateSimulation (engine p) = Normal (engine p') ∧
     (phase (engine p') ≠ Done -> pendingFrames p' = pendingFrames p)) ∧
    (simulationRunning p = false ->
     engine p' = engine p ∧ simulationRunning p' = false).
Proof.
  destruct (session_inv es) as (p & Hp & Hr & Hrun & Hpend).
  exists p. unfold session in *.
  destruct loaded as [p0|]; [|discriminate]. cbn [mbind completion_bind] in *.
  rewrite handleAll_app, Hp. cbn [mbind completion_bind handleAll handle].
  destruct (simulationRunning p) eqn:Erun.
  - specialize (Hpend eq_refl).
    destruct (pendingFrames p) as [|n] eqn:En; [lia|].
    set (q := {| engine := engine p; simulationRunning := true; pendingFrames := n |}).
    destruct (animate_running q eq_refl Hr) as (s' & Hs' & -> & _).
    cbn [mbind completion_bind]. eexists. split; [reflexivity|]. split; [reflexivity|].
    split; [|discriminate]. intros _.
    cbn [engine pendingFrames] in *.
    destruct (phase s') eqn:Eph; cbn [engine pendingFrames]; rewrite ?Eph;
      (split; [exact Hs'|]); intros H; first [reflexivity | now destruct H].
  - destruct (pendingFrames p) as [|n]; cbn [mbind completion_bind].
    + exists p. rewrite Erun. repeat split; try discriminate; reflexivity.
    + unfold animate. cbn [simulationRunning negb mbind completion_bind].
      eexists. split; [reflexivity|]. split; [reflexivity|].
      split; [discriminate|]. intros _. split; reflexivity.
Qed.
